(** * ms_agent.config.config: the configuration resolution engine

    A shallow embedding of [src/ms_agent/config/config.py] (class [Config])
    and the properties of its merge pass, argument parser, finisher,
    classifier and MCP projection.

    OmegaConf containers are mutable objects.  A function of the source that
    mutates its argument is embedded as a function returning an [Outcome]:
    the state of the mutated object when the call returned, or the exception
    raised together with the state the object was left in (nothing is rolled
    back). *)

From Stdlib Require Import ZArith.
From stdpp Require Import gmap strings list fin_maps.

#[local] Set Warnings "-register-all".
Local Open Scope string_scope.
Local Open Scope list_scope.

(** ** Python strings *)

Module Py.

(** [s.startswith(p)] *)
Definition startswith (s p : string) : bool := String.prefix p s.

(** [s.endswith(p)] *)
Definition endswith (s p : string) : bool :=
  (String.length p <=? String.length s)%nat
  && String.eqb (String.substring (String.length s - String.length p)
                                  (String.length p) s) p.

(** [s[1:-1]] *)
Definition slice_1_m1 (s : string) : string :=
  String.substring 1 (String.length s - 2) s.

(** [s[2:]] *)
Definition slice_2 (s : string) : string :=
  String.substring 2 (String.length s - 2) s.

(** [k in d] for a [dict] with string keys *)
Definition contains {V} (d : gmap string V) (k : string) : bool :=
  match d !! k with Some _ => true | None => false end.

(** Truth value of an optional dict: [None] and [{}] are false. *)
Definition dict_truthy {V} (d : option (gmap string V)) : bool :=
  match d with
  | None => false
  | Some m => negb (bool_decide (m = ∅))
  end.

End Py.

(** ** Data model *)

(** Scalar leaves of a loaded document.  YAML floats are left out: every
    operation below treats them as it treats integers. *)
Inductive Scalar :=
| SStr (s : string)
| SInt (z : Z)
| SBool (b : bool)
| SNull.

#[local] Unset Elimination Schemes.

(** [DictConfig] / [ListConfig] / plain value.  A [DictConfig] keeps its
    entries in insertion order; the keys of one mapping are pairwise
    distinct (see [wf]). *)
Inductive ConfigTree :=
| Mapping (kvs : list (string * ConfigTree))
| Sequence (xs : list ConfigTree)
| Leaf (v : Scalar).

#[local] Set Elimination Schemes.

Inductive exn :=
| KeyError (key : string)
| IndexError (idx : nat)
| AssertionError (msg : string) (args : list string)
| ConfigAttributeError (key : string)
| AttributeError (attr : string).

Inductive Outcome (S : Type) :=
| Returned (s : S)
| Raised (e : exn) (s : S).
Arguments Returned {S} s.
Arguments Raised {S} e s.

Definition returns_normally {S} (o : Outcome S) : bool :=
  match o with Returned _ => true | Raised _ _ => false end.

(** [isinstance(value, BaseContainer)] *)
Definition is_container (t : ConfigTree) : bool :=
  match t with Leaf _ => false | _ => true end.

(** *** Dictionaries in insertion order *)

(** [d[k]] / [getattr(d, k)] on the entries of a mapping *)
Fixpoint dict_get (d : list (string * ConfigTree)) (k : string)
  : option ConfigTree :=
  match d with
  | [] => None
  | (k', v) :: rest => if String.eqb k' k then Some v else dict_get rest k
  end.

(** [d[k] = v] / [setattr(d, k, v)]: an existing key keeps its position, a
    new key goes to the end. *)
Fixpoint dict_set (d : list (string * ConfigTree)) (k : string)
  (v : ConfigTree) : list (string * ConfigTree) :=
  match d with
  | [] => [(k, v)]
  | (k', v') :: rest =>
      if String.eqb k' k then (k', v) :: rest else (k', v') :: dict_set rest k v
  end.

Definition keys (d : list (string * ConfigTree)) : list string := d.*1.

(** Keys are unique inside every mapping of the tree, as in any Python
    dict. *)
Fixpoint wf (t : ConfigTree) : bool :=
  match t with
  | Mapping kvs =>
      bool_decide (NoDup (keys kvs)) && forallb (fun kv => wf kv.2) kvs
  | Sequence xs => forallb wf xs
  | Leaf _ => true
  end.

(** *** Positions in a tree *)

Inductive step := Key (k : string) | Idx (i : nat).

Fixpoint get (p : list step) (t : ConfigTree) : option ConfigTree :=
  match p with
  | [] => Some t
  | Key k :: p' =>
      match t with
      | Mapping kvs =>
          match dict_get kvs k with Some c => get p' c | None => None end
      | _ => None
      end
  | Idx i :: p' =>
      match t with
      | Sequence xs =>
          match xs !! i with Some c => get p' c | None => None end
      | _ => None
      end
  end.

(** The mapping reached by [p] has the entry [(name, value)]. *)
Definition entry_at (p : list step) (name : string) (value : ConfigTree)
  (t : ConfigTree) : Prop :=
  get (p ++ [Key name]) t = Some value.

(** ** [Config._update_config] *)

Section Merge.

Variable extra : gmap string string.

(** The test of lines 208-210 and 223-225:
    [isinstance(value, str) and value.startswith('<')
     and value.endswith('>') and value[1:-1] in extra] *)
Definition is_placeholder (value : Scalar) : bool :=
  match value with
  | SStr s =>
      Py.startswith s "<" && Py.endswith s ">"
      && Py.contains extra (Py.slice_1_m1 s)
  | _ => false
  end.

Section Loops.

(** The recursive call [traverse_config(value)] on a child. *)
Variable traverse : ConfigTree -> Outcome ConfigTree.

(** Lines 198-212: [for name, value in _config.items()].  [items] is
    what is left of the snapshot taken by [items()], [d] the current
    entries of [_config].  A container child is the very object stored
    under [name], so what the recursive call did to it is what [d]
    holds under [name] afterwards. *)
Fixpoint dict_loop (items d : list (string * ConfigTree))
  : Outcome (list (string * ConfigTree)) :=
  match items with
  | [] => Returned d
  | (name, value) :: rest =>
      match value with
      | Leaf s =>
          let d1 :=
            match extra !! name with
            | Some x => dict_set d name (Leaf (SStr x))
            | None => d
            end in
          if is_placeholder s then
            match extra !! name with
            | Some x => dict_loop rest (dict_set d1 name (Leaf (SStr x)))
            | None => Raised (KeyError name) d1
            end
          else dict_loop rest d1
      | _ =>
          match traverse value with
          | Returned value' => dict_loop rest (dict_set d name value')
          | Raised e value' => Raised e (dict_set d name value')
          end
      end
  end.

(** Lines 216-227: [for idx in range(len(_config))].  [elems] is the
    part of the list from [idx] on as it was when the loop started:
    position [idx] is not written before iteration [idx], so
    [_config[idx]] reads that element.  [l] is the current list. *)
Fixpoint list_loop (elems : list ConfigTree) (idx : nat)
  (l : list ConfigTree) : Outcome (list ConfigTree) :=
  match elems with
  | [] => Returned l
  | value :: rest =>
      match value with
      | Leaf (SStr s) =>
          if is_placeholder (SStr s) then
            match extra !! Py.slice_1_m1 s with
            | Some x => list_loop rest (S idx) (<[idx := Leaf (SStr x)]> l)
            | None => Raised (KeyError (Py.slice_1_m1 s)) l
            end
          else list_loop rest (S idx) l
      | Leaf _ => list_loop rest (S idx) l
      | _ =>
          match traverse value with
          | Returned value' => list_loop rest (S idx) (<[idx := value']> l)
          | Raised e value' => Raised e (<[idx := value']> l)
          end
      end
  end.

End Loops.

(** Lines 194-227.  The calls of [logger.info] write to the log and to
    nothing else; they are not part of the state. *)
Fixpoint traverse_config (_config : ConfigTree) : Outcome ConfigTree :=
  match _config with
  | Mapping kvs =>
      match dict_loop traverse_config kvs kvs with
      | Returned d => Returned (Mapping d)
      | Raised e d => Raised e (Mapping d)
      end
  | Sequence xs =>
      match list_loop traverse_config xs 0 xs with
      | Returned l => Returned (Sequence l)
      | Raised e l => Raised e (Sequence l)
      end
  | Leaf _ => Returned _config
  end.

End Merge.

Arguments is_placeholder : simpl never.

(** Lines 191-231, over any traversal: [if not extra: return config], else
    run the traversal. *)
Definition update_config_with
  (trav : gmap string string -> ConfigTree -> Outcome ConfigTree)
  (config : ConfigTree) (extra : option (gmap string string))
  : Outcome ConfigTree :=
  if negb (Py.dict_truthy extra) then Returned config
  else match extra with
       | Some m => trav m config
       | None => Returned config
       end.

Definition _update_config (config : ConfigTree)
  (extra : option (gmap string string)) : Outcome ConfigTree :=
  update_config_with traverse_config config extra.

(** ** [Config.parse_args] *)

(** [range(start, stop, step)] for non-negative bounds and [step > 0] *)
Definition py_range (start stop step : nat) : list nat :=
  (fun i => start + i * step) <$> seq 0 ((stop - start + step - 1) / step).

Definition param_not_correct : string := "Parameter not correct".

(** Lines 168-175; [d] is [_dict_config]. *)
Fixpoint args_loop (unknown : list string) (idxs : list nat)
  (d : gmap string string) : Outcome (gmap string string) :=
  match idxs with
  | [] => Returned d
  | idx :: rest =>
      match unknown !! idx with
      | None => Raised (IndexError idx) d
      | Some key =>
          match unknown !! (idx + 1) with
          | None => Raised (IndexError (idx + 1)) d
          | Some value =>
              if Py.startswith key "--"
              then args_loop unknown rest (<[Py.slice_2 key := value]> d)
              else Raised (AssertionError param_not_correct unknown) d
          end
      end
  end.

(** Lines 162-176, from the list [unknown] that
    [ArgumentParser().parse_known_args()] hands back: the parser declares
    no argument, so that list holds the tokens of the command line after
    the program name. *)
Definition parse_args (unknown : list string) : Outcome (gmap string string) :=
  match unknown with
  | [] => Returned ∅
  | _ => args_loop unknown (py_range 1 (length unknown - 1) 2) ∅
  end.

(** ** [Config.fill_missing_fields] and [Config.is_workflow] *)

Inductive Result (A : Type) :=
| Value (a : A)
| Error (e : exn).
Arguments Value {A} a.
Arguments Error {A} e.

(** [getattr(obj, key)]: a key of a [DictConfig]; a missing key, a
    [ListConfig] and a plain value have no such attribute. *)
Definition getattr (obj : ConfigTree) (key : string) : Result ConfigTree :=
  match obj with
  | Mapping d =>
      match dict_get d key with
      | Some v => Value v
      | None => Error (ConfigAttributeError key)
      end
  | Sequence _ => Error (ConfigAttributeError key)
  | Leaf _ => Error (AttributeError key)
  end.

(** [getattr(obj, key, default)] *)
Definition getattr_default (obj : ConfigTree) (key : string)
  (default : ConfigTree) : ConfigTree :=
  match getattr obj key with Value v => v | Error _ => default end.

(** [hasattr(obj, key)] *)
Definition hasattr (obj : ConfigTree) (key : string) : bool :=
  match getattr obj key with Value _ => true | Error _ => false end.

(** [setattr(obj, key, v)]: only a [DictConfig] takes attributes. *)
Definition setattr (obj : ConfigTree) (key : string) (v : ConfigTree)
  : Outcome ConfigTree :=
  match obj with
  | Mapping d => Returned (Mapping (dict_set d key v))
  | Sequence _ => Raised (ConfigAttributeError key) obj
  | Leaf _ => Raised (AttributeError key) obj
  end.

(** [x is None] *)
Definition is_None (t : ConfigTree) : bool :=
  match t with Leaf SNull => true | _ => false end.

(** Sequencing of two calls that mutate the same object. *)
Definition and_then {S} (o : Outcome S) (k : S -> Outcome S) : Outcome S :=
  match o with
  | Returned s => k s
  | Raised e s => Raised e s
  end.

(** Lines 133-134 and 136-137: [if not hasattr(config, key) or
    config.key is None: config.key = empty]. *)
Definition fill_field (key : string) (empty : ConfigTree)
  (config : ConfigTree) : Outcome ConfigTree :=
  if negb (hasattr config key)
     || is_None (getattr_default config key (Leaf SNull))
  then setattr config key empty
  else Returned config.

Definition fill_missing_fields (config : ConfigTree) : Outcome ConfigTree :=
  and_then (fill_field "tools" (Mapping []) config)
           (fill_field "callbacks" (Sequence [])).

(** [a == b] for a value of the tree and a string *)
Definition py_eq_str (a : ConfigTree) (b : string) : bool :=
  match a with Leaf (SStr s) => String.eqb s b | _ => false end.

Definition no_valid_name : string := "Cannot find a valid name in this config".

(** Lines 150-151. *)
Definition is_workflow (config : ConfigTree) : Result bool :=
  match getattr config "name" with
  | Error e => Error e
  | Value name =>
      if is_None name then Error (AssertionError no_valid_name [])
      else Value (existsb (py_eq_str name) ["workflow.yaml"; "workflow.yml"])
  end.

(** ** [Config.from_task], from the loaded document on *)

Definition supported_config_names : list string :=
  ["workflow.yaml"; "workflow.yml"; "agent.yaml"; "agent.yml"].

(** Lines 107-112: the environment pass, then the parse of the command
    line, then the command-line pass.  [envs] is what [Env.load_env(env)]
    returned, [unknown] what [parse_known_args] returned. *)
Definition merge_passes (config : ConfigTree) (envs : gmap string string)
  (unknown : list string) : Outcome ConfigTree :=
  and_then (_update_config config (Some envs)) (fun config1 =>
    match parse_args unknown with
    | Raised e _ => Raised e config1
    | Returned _dict_config => _update_config config1 (Some _dict_config)
    end).

(** Lines 106-120, with the document [config] found under the file name
    [name] in the directory [local_dir]. *)
Definition from_task (config : ConfigTree) (name local_dir : string)
  (envs : gmap string string) (unknown : list string) : Outcome ConfigTree :=
  and_then (merge_passes config envs unknown) (fun c =>
  and_then (setattr c "local_dir" (Leaf (SStr local_dir))) (fun c =>
  and_then (setattr c "name" (Leaf (SStr name)))
           fill_missing_fields)).

(** ** [Config.convert_mcp_servers_to_json] *)

(** Truth value of a loaded value: empty containers, the empty string, zero,
    [False] and [None] are false. *)
Definition py_truthy (t : ConfigTree) : bool :=
  match t with
  | Mapping [] => false
  | Mapping _ => true
  | Sequence [] => false
  | Sequence _ => true
  | Leaf (SStr s) => negb (String.eqb s "")
  | Leaf (SInt z) => negb (z =? 0)%Z
  | Leaf (SBool b) => b
  | Leaf SNull => false
  end.

(** [deepcopy]: a value of the embedding is its own copy. *)
Definition deepcopy (t : ConfigTree) : ConfigTree := t.

(** Lines 250-254; [servers] is [servers['mcpServers']]. *)
Fixpoint mcp_loop (items servers : list (string * ConfigTree))
  : list (string * ConfigTree) :=
  match items with
  | [] => servers
  | (server, server_config) :: rest =>
      if py_truthy (getattr_default server_config "mcp" (Leaf (SBool true)))
      then mcp_loop rest (dict_set servers server (deepcopy server_config))
      else mcp_loop rest servers
  end.

(** Lines 245-255.  [tools.items()] exists on a [DictConfig] only: a
    [ListConfig] answers any attribute with its own error, a plain value
    has no such attribute. *)
Definition convert_mcp_servers_to_json (config : ConfigTree)
  : Result ConfigTree :=
  let tools := getattr_default config "tools" (Leaf SNull) in
  if py_truthy tools then
    match tools with
    | Mapping items =>
        Value (Mapping [("mcpServers", Mapping (mcp_loop items []))])
    | Sequence _ => Error (ConfigAttributeError "items")
    | Leaf _ => Error (AttributeError "items")
    end
  else Value (Mapping [("mcpServers", Mapping [])]).

(** ** What a pass that returns leaves behind *)

(** Where a value sits: at the root, under a key of a mapping, or in a
    sequence. *)
Inductive position :=
| AtRoot
| UnderKey (name : string)
| AtIndex.

Section Merged.

Variable extra : gmap string string.

(** [merged pos t t']: [t'] is [t] after a pass over it.  Containers are
    entered, never replaced; a scalar under a key of [extra] becomes the
    override of that key; a placeholder in a sequence becomes the override
    its token names; a placeholder under a key that is not in [extra] has
    no outcome. *)
Inductive merged : position -> ConfigTree -> ConfigTree -> Prop :=
| merged_root v : merged AtRoot (Leaf v) (Leaf v)
| merged_direct name v x :
    extra !! name = Some x ->
    merged (UnderKey name) (Leaf v) (Leaf (SStr x))
| merged_untouched name v :
    extra !! name = None -> is_placeholder extra v = false ->
    merged (UnderKey name) (Leaf v) (Leaf v)
| merged_token s x :
    is_placeholder extra (SStr s) = true ->
    extra !! Py.slice_1_m1 s = Some x ->
    merged AtIndex (Leaf (SStr s)) (Leaf (SStr x))
| merged_plain v :
    is_placeholder extra v = false ->
    merged AtIndex (Leaf v) (Leaf v)
| merged_Mapping pos kvs kvs' :
    Forall2 (fun kv kv' => kv.1 = kv'.1 /\ merged (UnderKey kv.1) kv.2 kv'.2)
            kvs kvs' ->
    merged pos (Mapping kvs) (Mapping kvs')
| merged_Sequence pos xs xs' :
    Forall2 (merged AtIndex) xs xs' ->
    merged pos (Sequence xs) (Sequence xs').

End Merged.

(** Same containers at the same places: equal keys in equal order, equal
    lengths, scalars where scalars were. *)
Inductive same_shape : ConfigTree -> ConfigTree -> Prop :=
| shape_Leaf v v' : same_shape (Leaf v) (Leaf v')
| shape_Mapping kvs kvs' :
    Forall2 (fun kv kv' => kv.1 = kv'.1 /\ same_shape kv.2 kv'.2) kvs kvs' ->
    same_shape (Mapping kvs) (Mapping kvs')
| shape_Sequence xs xs' :
    Forall2 same_shape xs xs' ->
    same_shape (Sequence xs) (Sequence xs').

(** The kind of a node with what a pass must keep of it. *)
Inductive node_kind :=
| KMapping (ks : list string)
| KSequence (len : nat)
| KScalar.

Definition kind_of (t : ConfigTree) : node_kind :=
  match t with
  | Mapping kvs => KMapping (keys kvs)
  | Sequence xs => KSequence (length xs)
  | Leaf _ => KScalar
  end.

Definition position_of_step (st : step) : position :=
  match st with Key k => UnderKey k | Idx _ => AtIndex end.

(** One iteration of each loop of the traversal that did not raise, as a
    relation between the entry before and after. *)
Section Iterations.

Variable extra : gmap string string.
Variable traverse : ConfigTree -> Outcome ConfigTree.

Definition entry_ok (kv kv' : string * ConfigTree) : Prop :=
  kv.1 = kv'.1 /\
  match kv.2 with
  | Leaf s =>
      match extra !! kv.1 with
      | Some x => kv'.2 = Leaf (SStr x)
      | None => is_placeholder extra s = false /\ kv'.2 = Leaf s
      end
  | c => traverse c = Returned kv'.2
  end.

Definition elem_ok (v v' : ConfigTree) : Prop :=
  match v with
  | Leaf (SStr s) =>
      if is_placeholder extra (SStr s)
      then exists x, extra !! Py.slice_1_m1 s = Some x /\ v' = Leaf (SStr x)
      else v' = v
  | Leaf _ => v' = v
  | c => traverse c = Returned v'
  end.

End Iterations.

(** The tokens of a list of [--key value] pairs, and the map they stand
    for (a repeated key keeps its last value). *)
Definition pair_tokens (pairs : list (string * string)) : list string :=
  concat ((fun kv => [kv.1; kv.2]) <$> pairs).

Definition pairs_map (d : gmap string string) (pairs : list (string * string))
  : gmap string string :=
  foldl (fun d kv => <[Py.slice_2 kv.1 := kv.2]> d) d pairs.

(** The state of the object, however the call ended. *)
Definition outcome_state {S} (o : Outcome S) : S :=
  match o with Returned s => s | Raised _ s => s end.

(** The iteration of each loop of the traversal that raised [e], leaving
    [v'] where the value was. *)
Section Failures.

Variable extra : gmap string string.
Variable traverse : ConfigTree -> Outcome ConfigTree.

Definition entry_raised (e : exn) (kv : string * ConfigTree)
  (v' : ConfigTree) : Prop :=
  match kv.2 with
  | Leaf s =>
      is_placeholder extra s = true /\ extra !! kv.1 = None
      /\ e = KeyError kv.1 /\ v' = Leaf s
  | c => traverse c = Raised e v'
  end.

Definition elem_raised (e : exn) (v v' : ConfigTree) : Prop :=
  is_container v = true /\ traverse v = Raised e v'.

End Failures.

(** [sub in s] for two strings *)
Fixpoint str_contains (s sub : string) : bool :=
  String.prefix sub s
  || match s with
     | EmptyString => false
     | String _ rest => str_contains rest sub
     end.

(** A string that OmegaConf hands back as it is written: not [???], the
    marker of a missing value, which raises when it is read, and without
    [${], which starts an interpolation that is resolved when it is read.
    The traversal above reads every string as written. *)
Definition inert_scalar (v : Scalar) : bool :=
  match v with
  | SStr s => negb (String.eqb s "???") && negb (str_contains s "${")
  | _ => true
  end.

(** A document all of whose strings are inert. *)
Fixpoint inert (t : ConfigTree) : bool :=
  match t with
  | Mapping kvs => forallb (fun kv => inert kv.2) kvs
  | Sequence xs => forallb inert xs
  | Leaf v => inert_scalar v
  end.

(** A mapping entry the pass cannot get past: a placeholder under a key
    that [extra] does not have. *)
Definition unresolvable (extra : gmap string string) (t : ConfigTree) : Prop :=
  exists p name v,
    entry_at p name (Leaf v) t
    /\ is_placeholder extra v = true /\ extra !! name = None.

(** What a scalar of a sequence becomes: the override its token names if
    it is a placeholder, itself otherwise. *)
Definition resolve_token (extra : gmap string string) (v : Scalar) : Scalar :=
  match v with
  | SStr s =>
      if is_placeholder extra v
      then match extra !! Py.slice_1_m1 s with
           | Some x => SStr x
           | None => v
           end
      else v
  | _ => v
  end.

(** No override value is itself a placeholder of [extra]. *)
Definition no_token_values (extra : gmap string string) : bool :=
  forallb (fun kv => negb (is_placeholder extra (SStr kv.2)))
          (map_to_list extra).

(** ** [Config.from_task], up to the loaded document *)

(** What the code sees of the file system: [os.path.exists],
    [os.path.isfile] and [OmegaConf.load], which raises on a file it cannot
    read. *)
Record FileSystem := {
  path_exists : string -> bool;
  path_isfile : string -> bool;
  OmegaConf_load : string -> Result ConfigTree
}.

(** The loaded document with the file name and the directory it came
    from. *)
Record Located := {
  loc_config : ConfigTree;
  loc_name : string;
  loc_dir : string
}.

Definition cannot_find : string := "Cannot find any valid config file in".

Section Locate.

(** [os.path.join], [os.path.basename], [os.path.dirname]. *)
Variable path_join : string -> string -> string.
Variable path_basename : string -> string.
Variable path_dirname : string -> string.

(** [modelscope.snapshot_download]: the local directory of the
    repository and the file system with that directory in it, or the
    exception of the hub. *)
Variable snapshot_download :
  FileSystem -> string -> Result (string * FileSystem).

(** Lines 81-82. *)
Definition resolve_path (fs : FileSystem) (config_dir_or_id : string)
  : Result (string * FileSystem) :=
  if negb (path_exists fs config_dir_or_id)
  then snapshot_download fs config_dir_or_id
  else Value (config_dir_or_id, fs).

(** Lines 94-99: the first name of the list whose file exists is loaded,
    and the loop stops there. *)
Fixpoint search_configs (fs : FileSystem) (dir : string)
  (names : list string) : Result (option (ConfigTree * string)) :=
  match names with
  | [] => Value None
  | _name :: rest =>
      let config_file := path_join dir _name in
      if path_exists fs config_file then
        match OmegaConf_load fs config_file with
        | Value config => Value (Some (config, _name))
        | Error e => Error e
        end
      else search_configs fs dir rest
  end.

(** Lines 84-104. *)
Definition load_from (fs : FileSystem) (config_dir_or_id : string)
  : Result Located :=
  if path_isfile fs config_dir_or_id then
    match OmegaConf_load fs config_dir_or_id with
    | Value config =>
        Value {| loc_config := config;
                 loc_name := path_basename config_dir_or_id;
                 loc_dir := path_dirname config_dir_or_id |}
    | Error e => Error e
    end
  else
    match search_configs fs config_dir_or_id supported_config_names with
    | Value (Some (config, name)) =>
        Value {| loc_config := config;
                 loc_name := name;
                 loc_dir := config_dir_or_id |}
    | Value None =>
        Error (AssertionError cannot_find
                 (config_dir_or_id :: supported_config_names))
    | Error e => Error e
    end.

(** Lines 80-104. *)
Definition locate (fs : FileSystem) (config_dir_or_id : string)
  : Result Located :=
  match resolve_path fs config_dir_or_id with
  | Value (dir, fs') => load_from fs' dir
  | Error e => Error e
  end.

(** Lines 68-120: [Config.from_task(config_dir_or_id, env)], with [envs]
    what [Env.load_env(env)] returned and [unknown] what the argument
    parser left. *)
Definition from_task_at (fs : FileSystem) (config_dir_or_id : string)
  (envs : gmap string string) (unknown : list string)
  : Result (Outcome ConfigTree) :=
  match locate fs config_dir_or_id with
  | Value l =>
      Value (from_task (loc_config l) (loc_name l) (loc_dir l) envs unknown)
  | Error e => Error e
  end.

End Locate.

(** Whether a tool entry goes into the MCP view: the truth value of
    [getattr(server_config, 'mcp', True)]. *)
Definition mcp_enabled (server_config : ConfigTree) : bool :=
  py_truthy (getattr_default server_config "mcp" (Leaf (SBool true))).

(** The empty projection [{'mcpServers': {}}]. *)
Definition empty_projection : ConfigTree :=
  Mapping [("mcpServers", Mapping [])].

(** The tokens [parse_args] reads as keys all begin with [--]. *)
Definition key_tokens_ok (unknown : list string) : bool :=
  forallb (fun idx => match unknown !! idx with
                      | Some key => Py.startswith key "--"
                      | None => true
                      end)
          (py_range 1 (length unknown - 1) 2).

(** ** Documents and override maps used as examples *)

Definition scenario_doc : ConfigTree :=
  Mapping [("model", Leaf (SStr "<model_name>")); ("retries", Leaf (SInt 3))].

Definition scenario_cli : gmap string string :=
  {["model_name" := "qwen-max"; "retries" := "5"]}.

Definition direct_doc : ConfigTree :=
  Mapping [("llm", Sequence [Mapping [("model", Leaf (SStr "<model_name>"))]])].

Definition direct_extra : gmap string string :=
  {["model" := "gpt"; "model_name" := "qwen-max"]}.

Definition shape_doc : ConfigTree :=
  Mapping [("retries", Leaf (SInt 3));
           ("llm", Mapping [("model", Leaf (SStr "x"))]);
           ("stops", Sequence [Leaf (SStr "<model>"); Leaf SNull])].

Definition shape_result : ConfigTree :=
  Mapping [("retries", Leaf (SStr "5"));
           ("llm", Mapping [("model", Leaf (SStr "gpt"))]);
           ("stops", Sequence [Leaf (SStr "gpt"); Leaf SNull])].

(** The tools mapping [{a: {mcp: true, x: 1}, b: {mcp: false, x: 2},
    c: {x: 3}}]. *)
Definition tools_doc : ConfigTree :=
  Mapping
    [("tools",
      Mapping
        [("a", Mapping [("mcp", Leaf (SBool true)); ("x", Leaf (SInt 1))]);
         ("b", Mapping [("mcp", Leaf (SBool false)); ("x", Leaf (SInt 2))]);
         ("c", Mapping [("x", Leaf (SInt 3))])])].

Definition partial_doc : ConfigTree :=
  Mapping [("retries", Leaf (SInt 3)); ("model", Leaf (SStr "<model_name>"))].

Definition partial_result : ConfigTree :=
  Mapping [("retries", Leaf (SStr "5")); ("model", Leaf (SStr "<model_name>"))].

Definition stops_doc : ConfigTree :=
  Mapping [("stops", Sequence [Leaf (SStr "<model_name>"); Leaf (SInt 7)]);
           ("mode", Leaf (SStr "fast"))].

Definition stops_result : ConfigTree :=
  Mapping [("stops", Sequence [Leaf (SStr "qwen-max"); Leaf (SInt 7)]);
           ("mode", Leaf (SStr "fast"))].

Definition chained_extra : gmap string string :=
  {["a" := "<b>"; "b" := "c"]}.

Definition tools_entries : list (string * ConfigTree) :=
  [("a", Mapping [("mcp", Leaf (SBool true)); ("x", Leaf (SInt 1))]);
   ("b", Mapping [("mcp", Leaf SNull)]);
   ("c", Leaf (SStr "npx server"))].

(** A directory [/cfg] that holds [agent.yml] and [workflow.yml]. *)
Definition cfg_join (dir name : string) : string := dir +:+ "/" +:+ name.

Definition cfg_fs : FileSystem := {|
  path_exists := fun p =>
    String.eqb p "/cfg" || String.eqb p "/cfg/agent.yml"
    || String.eqb p "/cfg/workflow.yml";
  path_isfile := fun p =>
    String.eqb p "/cfg/agent.yml" || String.eqb p "/cfg/workflow.yml";
  OmegaConf_load := fun p =>
    if String.eqb p "/cfg/workflow.yml" then Value (Mapping [])
    else Value (Mapping [("retries", Leaf (SInt 3))])
|}.

(** A directory [/empty] with nothing in it. *)
Definition empty_fs : FileSystem := {|
  path_exists := fun p => String.eqb p "/empty";
  path_isfile := fun p => false;
  OmegaConf_load := fun p => Error (KeyError p)
|}.

Definition cfg_final : ConfigTree :=
  Mapping [("local_dir", Leaf (SStr "/cfg"));
           ("name", Leaf (SStr "workflow.yml"));
           ("tools", Mapping []); ("callbacks", Sequence [])].

Definition file_final : ConfigTree :=
  Mapping [("retries", Leaf (SStr "4"));
           ("local_dir", Leaf (SStr "/cfg"));
           ("name", Leaf (SStr "agent.yml"));
           ("tools", Mapping []); ("callbacks", Sequence [])].

Definition nested_null_doc : ConfigTree :=
  Mapping [("llm", Mapping [("stop", Leaf SNull)]); ("tools", Leaf SNull)].

Definition nested_null_final : ConfigTree :=
  Mapping [("llm", Mapping [("stop", Leaf SNull)]); ("tools", Mapping []);
           ("local_dir", Leaf (SStr "/tmp"));
           ("name", Leaf (SStr "agent.yml")); ("callbacks", Sequence [])].

Definition named_doc : ConfigTree := Mapping [("name", Leaf (SStr "x"))].

Definition named_final : ConfigTree :=
  Mapping [("name", Leaf (SStr "agent.yaml"));
           ("local_dir", Leaf (SStr "/tmp"));
           ("tools", Mapping []); ("callbacks", Sequence [])].

Definition retries_final : ConfigTree :=
  Mapping [("retries", Leaf (SStr "5"));
           ("local_dir", Leaf (SStr "/tmp"));
           ("name", Leaf (SStr "agent.yml"));
           ("tools", Mapping []); ("callbacks", Sequence [])].

(** The part of a path before its last [/] and the part after it, for
    paths such as [/cfg/agent.yml]. *)
Fixpoint split_last_slash (s : string) : option (string * string) :=
  match s with
  | EmptyString => None
  | String c rest =>
      match split_last_slash rest with
      | Some (h, t) => Some (String c h, t)
      | None => if String.eqb (String c EmptyString) "/" then Some (EmptyString, rest) else None
      end
  end.

Definition cfg_basename (s : string) : string :=
  match split_last_slash s with Some (_, t) => t | None => s end.

Definition cfg_dirname (s : string) : string :=
  match split_last_slash s with Some (h, _) => h | None => EmptyString end.

(** A hub that knows no repository. *)
Definition no_hub (fs : FileSystem) (id : string)
  : Result (string * FileSystem) :=
  Error (KeyError id).

Definition retries_doc : ConfigTree := Mapping [("retries", Leaf (SInt 3))].

Definition retries_env : gmap string string := {["retries" := "4"]}.

(** * Properties *)

(** ** Python strings on small inputs *)

Example startswith_dashes :
  Py.startswith "--model" "--" = true /\ Py.startswith "-m" "--" = false.
Proof. split; reflexivity. Qed.

Example endswith_bracket :
  Py.endswith "<model_name>" ">" = true /\ Py.endswith "<" ">" = false.
Proof. split; reflexivity. Qed.

Example slices :
  Py.slice_1_m1 "<model_name>" = "model_name"
  /\ Py.slice_1_m1 "<>" = "" /\ Py.slice_1_m1 "<" = ""
  /\ Py.slice_2 "--model" = "model" /\ Py.slice_2 "--" = "".
Proof. repeat split; reflexivity. Qed.

Example py_range_examples :
  py_range 1 0 2 = [] /\ py_range 1 1 2 = []
  /\ py_range 1 2 2 = [1] /\ py_range 1 3 2 = [1]
  /\ py_range 1 4 2 = [1; 3] /\ py_range 0 5 1 = [0; 1; 2; 3; 4].
Proof. repeat split; reflexivity. Qed.

Example inert_examples :
  inert (Mapping [("a", Leaf (SStr "<k>")); ("b", Sequence [Leaf (SInt 1)])])
    = true
  /\ inert (Mapping [("a", Leaf (SStr "???"))]) = false
  /\ inert (Mapping [("a", Leaf (SStr "x-${b}"))]) = false
  /\ inert (Sequence [Leaf (SStr "$b"); Leaf (SStr "??")]) = true.
Proof. repeat split; reflexivity. Qed.

(** ** Induction over trees *)

Lemma ConfigTree_ind (P : ConfigTree -> Prop) :
  (forall kvs, Forall (fun kv => P kv.2) kvs -> P (Mapping kvs)) ->
  (forall xs, Forall P xs -> P (Sequence xs)) ->
  (forall v, P (Leaf v)) ->
  forall t, P t.
Proof.
  intros HM HS HL.
  fix IH 1. intros [kvs|xs|v].
  - apply HM. induction kvs as [|[k c] kvs IHk]; constructor; [apply IH | exact IHk].
  - apply HS. induction xs as [|c xs IHx]; constructor; [apply IH | exact IHx].
  - apply HL.
Qed.

(** ** Dictionaries *)

Lemma eqb_string_refl (k : string) : String.eqb k k = true.
Proof. apply String.eqb_refl. Qed.

Lemma dict_set_app_fresh pre k v v' rest :
  k ∉ keys pre ->
  dict_set (pre ++ (k, v) :: rest) k v' = pre ++ (k, v') :: rest.
Proof.
  induction pre as [|[k0 v0] pre IH]; simpl.
  - intros _. by rewrite eqb_string_refl.
  - intros Hk. apply not_elem_of_cons in Hk as [Hne Hk].
    destruct (String.eqb_spec k0 k) as [->|_]; [done|]. by rewrite IH.
Qed.

Lemma dict_get_set_eq d k v : dict_get (dict_set d k v) k = Some v.
Proof.
  induction d as [|[k0 v0] d IH]; simpl.
  - by rewrite eqb_string_refl.
  - destruct (String.eqb_spec k0 k) as [->|Hne]; simpl.
    + by rewrite eqb_string_refl.
    + destruct (String.eqb_spec k0 k); done.
Qed.

Lemma dict_get_set_ne d k k' v :
  k <> k' -> dict_get (dict_set d k v) k' = dict_get d k'.
Proof.
  intros Hne. induction d as [|[k0 v0] d IH]; simpl.
  - destruct (String.eqb_spec k k'); done.
  - destruct (String.eqb_spec k0 k) as [->|Hne0]; simpl.
    + destruct (String.eqb_spec k k'); done.
    + by rewrite IH.
Qed.

Lemma keys_app_middle pre k (v v' : ConfigTree) rest :
  keys ((pre ++ [(k, v')]) ++ rest) = keys (pre ++ (k, v) :: rest).
Proof. unfold keys. rewrite <- app_assoc, !fmap_app. done. Qed.

Lemma NoDup_keys_fresh pre k (v : ConfigTree) rest :
  NoDup (keys (pre ++ (k, v) :: rest)) -> k ∉ keys pre.
Proof.
  unfold keys. rewrite fmap_app. intros Hnd Hin.
  apply NoDup_app in Hnd as (_ & Hdisj & _).
  apply (Hdisj k Hin). simpl. apply elem_of_cons. by left.
Qed.

(** ** The two loops of the traversal *)

Section LoopFacts.

Variable extra : gmap string string.
Variable traverse : ConfigTree -> Outcome ConfigTree.

(** With unique keys, a mapping loop that returns has rewritten the
    entries one by one, each in its place. *)
Lemma dict_loop_returned items : forall pre d',
  NoDup (keys (pre ++ items)) ->
  dict_loop extra traverse items (pre ++ items) = Returned d' ->
  exists items', d' = pre ++ items'
                 /\ Forall2 (entry_ok extra traverse) items items'.
Proof.
  induction items as [|[name value] rest IH]; intros pre d' Hnd; simpl.
  - intros [= <-]. exists []. split; [done | constructor].
  - pose proof (NoDup_keys_fresh _ _ _ _ Hnd) as Hfresh.
    assert (Hstep : forall v',
      dict_loop extra traverse rest (pre ++ (name, v') :: rest) = Returned d' ->
      entry_ok extra traverse (name, value) (name, v') ->
      exists items', d' = pre ++ items'
        /\ Forall2 (entry_ok extra traverse) ((name, value) :: rest) items').
    { intros v' Hrun Hok.
      rewrite (cons_middle (name, v') pre rest), app_assoc in Hrun.
      apply IH in Hrun as (items' & -> & Hall).
      - exists ((name, v') :: items'). rewrite <- app_assoc. split; [done|].
        by constructor.
      - by rewrite (keys_app_middle _ _ value). }
    destruct value as [kvs|xs|s].
    + destruct (traverse (Mapping kvs)) as [c'|e c'] eqn:Hc; [|done].
      rewrite dict_set_app_fresh by done. intros Hrun.
      apply (Hstep c' Hrun). by split.
    + destruct (traverse (Sequence xs)) as [c'|e c'] eqn:Hc; [|done].
      rewrite dict_set_app_fresh by done. intros Hrun.
      apply (Hstep c' Hrun). by split.
    + destruct (extra !! name) as [x|] eqn:Hx.
      * rewrite !dict_set_app_fresh by done.
        intros Hrun. apply (Hstep (Leaf (SStr x))).
        -- by destruct (is_placeholder extra s).
        -- split; [done|]. simpl. by rewrite Hx.
      * destruct (is_placeholder extra s) eqn:Hp; [done|].
        intros Hrun. apply (Hstep (Leaf s) Hrun).
        split; [done|]. simpl. by rewrite Hx.
Qed.

Lemma list_loop_returned elems : forall pre l',
  list_loop extra traverse elems (length pre) (pre ++ elems) = Returned l' ->
  exists elems', l' = pre ++ elems'
                 /\ Forall2 (elem_ok extra traverse) elems elems'.
Proof.
  induction elems as [|value rest IH]; intros pre l'; simpl.
  - intros [= <-]. exists []. split; [done | constructor].
  - assert (Hset : forall v',
      <[length pre := v']> (pre ++ value :: rest) = pre ++ v' :: rest).
    { intros v'. rewrite insert_app_r_alt by done.
      by rewrite Nat.sub_diag. }
    assert (Hstep : forall v',
      list_loop extra traverse rest (S (length pre)) (pre ++ v' :: rest)
        = Returned l' ->
      elem_ok extra traverse value v' ->
      exists elems', l' = pre ++ elems'
        /\ Forall2 (elem_ok extra traverse) (value :: rest) elems').
    { intros v' Hrun Hok.
      rewrite (cons_middle v' pre rest), app_assoc in Hrun.
      replace (S (length pre)) with (length (pre ++ [v'])) in Hrun
        by (rewrite length_app; simpl; lia).
      apply IH in Hrun as (elems' & -> & Hall).
      exists (v' :: elems'). rewrite <- app_assoc. split; [done|].
      by constructor. }
    destruct value as [kvs|xs|s].
    + destruct (traverse (Mapping kvs)) as [c'|e c'] eqn:Hc; [|done].
      rewrite Hset. intros Hrun. by apply (Hstep c' Hrun).
    + destruct (traverse (Sequence xs)) as [c'|e c'] eqn:Hc; [|done].
      rewrite Hset. intros Hrun. by apply (Hstep c' Hrun).
    + destruct s as [s|z|b|]; try (intros Hrun; by apply (Hstep _ Hrun)).
      destruct (is_placeholder extra (SStr s)) eqn:Hp.
      * destruct (extra !! Py.slice_1_m1 s) as [x|] eqn:Hx; [|done].
        rewrite Hset. intros Hrun. apply (Hstep _ Hrun).
        simpl. rewrite Hp. by exists x.
      * intros Hrun. apply (Hstep _ Hrun). simpl. by rewrite Hp.
Qed.

End LoopFacts.

(** ** From the traversal to the relation [merged] *)

Lemma wf_Mapping kvs :
  wf (Mapping kvs) -> NoDup (keys kvs) /\ Forall (fun kv => wf kv.2) kvs.
Proof.
  simpl. rewrite andb_True, bool_decide_spec, forallb_True. done.
Qed.

Lemma wf_Sequence xs : wf (Sequence xs) -> Forall (fun c => wf c) xs.
Proof. simpl. by rewrite forallb_True. Qed.

Lemma Forall2_Forall_impl {A B} (P : A -> Prop) (R R' : A -> B -> Prop) l l' :
  Forall P l -> Forall2 R l l' ->
  (forall x y, P x -> R x y -> R' x y) ->
  Forall2 R' l l'.
Proof.
  intros HP HR Himp. induction HR as [|x y l l' Hxy HR IH]; [constructor|].
  apply Forall_cons in HP as [Hx HP]. constructor; auto.
Qed.

Lemma traverse_config_merged extra t : forall t' pos,
  wf t -> traverse_config extra t = Returned t' ->
  is_container t = true \/ pos = AtRoot ->
  merged extra pos t t'.
Proof.
  induction t as [kvs IH|xs IH|v] using ConfigTree_ind;
    intros t' pos Hwf Hrun Hpos; simpl in Hrun.
  - destruct (dict_loop extra (traverse_config extra) kvs kvs)
      as [d|e d] eqn:Hloop; [|done].
    injection Hrun as <-. apply wf_Mapping in Hwf as [Hnd Hch].
    apply (dict_loop_returned _ _ kvs []) in Hloop as (kvs' & -> & Hall);
      [|done].
    constructor. simpl.
    pose proof (proj2 (Forall_and _ _) (conj IH Hch)) as Hboth.
    apply (Forall2_Forall_impl _ _ _ _ _ Hboth Hall).
    intros [k c] [k' c'] [IHc Hwfc] [Hk Hok]. simpl in *. subst k'.
    split; [done|].
    destruct c as [kvs0|xs0|s].
    + apply IHc; [done | done | by left].
    + apply IHc; [done | done | by left].
    + destruct (extra !! k) as [x|] eqn:Hx.
      * subst c'. by constructor.
      * destruct Hok as [Hp ->]. by constructor.
  - destruct (list_loop extra (traverse_config extra) xs 0 xs)
      as [l|e l] eqn:Hloop; [|done].
    injection Hrun as <-. apply wf_Sequence in Hwf.
    apply (list_loop_returned _ _ xs []) in Hloop as (xs' & -> & Hall).
    constructor. simpl.
    pose proof (proj2 (Forall_and _ _) (conj IH Hwf)) as Hboth.
    apply (Forall2_Forall_impl _ _ _ _ _ Hboth Hall).
    intros c c' [IHc Hwfc] Hok.
    destruct c as [kvs0|xs0|s]; simpl in Hok.
    + apply IHc; [done | done | by left].
    + apply IHc; [done | done | by left].
    + destruct s as [s|z|b|]; try (subst c'; by constructor).
      destruct (is_placeholder extra (SStr s)) eqn:Hp.
      * destruct Hok as (x & Hx & ->). by constructor.
      * subst c'. by constructor.
  - injection Hrun as <-. destruct Hpos as [?| ->]; [done | constructor].
Qed.

(** ** Reading the relation along a path *)

Lemma get_cons st p t :
  get (st :: p) t = get [st] t ≫= get p.
Proof.
  destruct st as [k|i]; destruct t as [kvs|xs|v]; simpl; try done.
  - by destruct (dict_get kvs k).
  - by destruct (xs !! i).
Qed.

Lemma Forall2_dict_get (R : string -> ConfigTree -> ConfigTree -> Prop)
  kvs kvs' k :
  Forall2 (fun kv kv' => kv.1 = kv'.1 /\ R kv.1 kv.2 kv'.2) kvs kvs' ->
  option_Forall2 (R k) (dict_get kvs k) (dict_get kvs' k).
Proof.
  induction 1 as [|[k0 c] [k0' c'] kvs kvs' [Hk Hc] _ IH]; simpl in *.
  - constructor.
  - subst k0'. destruct (String.eqb_spec k0 k) as [->|_]; [by constructor | done].
Qed.

Lemma merged_child extra pos t t' st c :
  merged extra pos t t' -> get [st] t = Some c ->
  exists c', get [st] t' = Some c' /\ merged extra (position_of_step st) c c'.
Proof.
  intros Hm Hget. destruct st as [k|i]; simpl in *.
  - destruct t as [kvs|xs|v]; try done.
    inversion Hm as [| | | | |pos' kvs0 kvs' Hall|]; subst.
    pose proof (Forall2_dict_get (fun k => merged extra (UnderKey k))
                  _ _ k Hall) as Hk.
    destruct (dict_get kvs k) as [c0|]; [|done].
    injection Hget as ->.
    inversion Hk as [c0 c' Hc|]; subst. exists c'. done.
  - destruct t as [kvs|xs|v]; try done.
    inversion Hm as [| | | | | |pos' xs0 xs' Hall]; subst.
    destruct (xs !! i) as [c0|] eqn:Hi; [|done].
    injection Hget as ->.
    destruct (Forall2_lookup_l _ _ _ _ _ Hall Hi) as (c' & Hi' & Hc).
    exists c'. by rewrite Hi'.
Qed.

Lemma merged_get extra p : forall st pos t t' c,
  merged extra pos t t' -> get (p ++ [st]) t = Some c ->
  exists c', get (p ++ [st]) t' = Some c'
             /\ merged extra (position_of_step st) c c'.
Proof.
  induction p as [|st0 p IH]; intros st pos t t' c Hm Hget; simpl app in *.
  - by eapply merged_child.
  - rewrite get_cons in Hget |- *.
    destruct (get [st0] t) as [c0|] eqn:H0; [|done]. simpl in Hget.
    destruct (merged_child _ _ _ _ _ _ Hm H0) as (c0' & -> & Hm0). simpl.
    by eapply IH.
Qed.

(** ** Shape *)

Lemma merged_same_shape extra t : forall pos t',
  merged extra pos t t' -> same_shape t t'.
Proof.
  induction t as [kvs IH|xs IH|v] using ConfigTree_ind; intros pos t' Hm;
    inversion Hm; subst; constructor.
  - eapply Forall2_Forall_impl; [exact IH | eassumption |].
    intros kv kv' IHc [Hk Hc]. split; [done|]. by eapply IHc.
  - eapply Forall2_Forall_impl; [exact IH | eassumption |].
    intros c c' IHc Hc. by eapply IHc.
Qed.

Lemma same_shape_keys kvs kvs' :
  Forall2 (fun kv kv' : string * ConfigTree =>
             kv.1 = kv'.1 /\ same_shape kv.2 kv'.2) kvs kvs' ->
  keys kvs = keys kvs'.
Proof.
  unfold keys.
  induction 1 as [|kv kv' kvs kvs' [Hk _] _ IH]; [done|].
  rewrite !fmap_cons. by f_equal.
Qed.

Lemma same_shape_kind t t' : same_shape t t' -> kind_of t = kind_of t'.
Proof.
  intros H. inversion H as [|kvs kvs' Hall|xs xs' Hall]; subst; simpl.
  - done.
  - f_equal. by apply same_shape_keys.
  - f_equal. by eapply Forall2_length.
Qed.

Lemma same_shape_get p : forall t t',
  same_shape t t' -> option_Forall2 same_shape (get p t) (get p t').
Proof.
  induction p as [|st p IH]; intros t t' Hs; [by constructor|].
  inversion Hs as [|kvs kvs' Hall|xs xs' Hall]; subst; destruct st as [k|i];
    simpl; try constructor.
  - pose proof (Forall2_dict_get (fun _ => same_shape) _ _ k Hall) as Hk.
    inversion Hk; [by apply IH | constructor].
  - destruct (xs !! i) as [c|] eqn:Hi.
    + destruct (Forall2_lookup_l _ _ _ _ _ Hall Hi) as (c' & -> & Hc).
      by apply IH.
    + apply lookup_ge_None in Hi. rewrite (Forall2_length _ _ _ Hall) in Hi.
      apply lookup_ge_None in Hi. rewrite Hi. constructor.
Qed.

Lemma same_shape_wf t : forall t', same_shape t t' -> wf t -> wf t'.
Proof.
  induction t as [kvs IH|xs IH|v] using ConfigTree_ind; intros t' Hs Hwf;
    inversion Hs as [|kvs0 kvs' Hall|xs0 xs' Hall]; subst; [| |done].
  - apply wf_Mapping in Hwf as [Hnd Hch]. simpl.
    rewrite andb_True, bool_decide_spec, forallb_True.
    rewrite <- (same_shape_keys _ _ Hall). split; [done|].
    pose proof (proj2 (Forall_and _ _) (conj IH Hch)) as Hboth.
    clear IH Hch Hnd Hs. induction Hall as [|kv kv' kvs kvs' [_ Hc] _ IHa].
    + constructor.
    + apply Forall_cons in Hboth as [[IHc Hwfc] Hboth].
      constructor; [by apply IHc | by apply IHa].
  - apply wf_Sequence in Hwf. simpl. rewrite forallb_True.
    pose proof (proj2 (Forall_and _ _) (conj IH Hwf)) as Hboth.
    clear IH Hwf Hs. induction Hall as [|c c' xs xs' Hc _ IHa].
    + constructor.
    + apply Forall_cons in Hboth as [[IHc Hwfc] Hboth].
      constructor; [by apply IHc | by apply IHa].
Qed.

Lemma same_shape_refl t : same_shape t t.
Proof.
  induction t as [kvs IH|xs IH|v] using ConfigTree_ind; constructor.
  - induction IH as [|kv kvs Hkv _ IHl]; constructor; [by split | done].
  - induction IH as [|c xs Hc _ IHl]; constructor; done.
Qed.

(** ** The pass as a whole *)

Lemma dict_truthy_lookup (extra : gmap string string) k x :
  extra !! k = Some x -> Py.dict_truthy (Some extra) = true.
Proof.
  intros Hk. simpl. rewrite bool_decide_eq_false_2; [done|].
  intros ->. by rewrite lookup_empty in Hk.
Qed.

Lemma update_config_nonempty config (extra : gmap string string) :
  Py.dict_truthy (Some extra) = true ->
  _update_config config (Some extra) = traverse_config extra config.
Proof.
  intros H. unfold _update_config, update_config_with. by rewrite H.
Qed.

Lemma update_config_merged config (extra : gmap string string) config' :
  wf config -> Py.dict_truthy (Some extra) = true ->
  _update_config config (Some extra) = Returned config' ->
  merged extra AtRoot config config'.
Proof.
  intros Hwf Hne. rewrite update_config_nonempty by done. intros Hrun.
  apply traverse_config_merged; [done | done | by right].
Qed.

Lemma update_config_same_shape config extra config' :
  wf config -> _update_config config extra = Returned config' ->
  same_shape config config'.
Proof.
  intros Hwf. destruct (Py.dict_truthy extra) eqn:Hne.
  - destruct extra as [m|]; [|done]. intros Hrun.
    eapply merged_same_shape. by apply update_config_merged.
  - unfold _update_config, update_config_with. rewrite Hne. simpl.
    intros [= <-]. apply same_shape_refl.
Qed.

(** In the relation, a scalar under a key of [extra] has become the
    override of that key. *)
Lemma merged_direct_entry extra pos t t' p name v x :
  merged extra pos t t' ->
  entry_at p name (Leaf v) t ->
  extra !! name = Some x ->
  entry_at p name (Leaf (SStr x)) t'.
Proof.
  unfold entry_at. intros Hm Hentry Hx.
  destruct (merged_get _ _ _ _ _ _ _ Hm Hentry) as (c' & Hget & Hc).
  rewrite Hget. f_equal. simpl in Hc.
  inversion Hc; subst; congruence.
Qed.

(** A placeholder under a key that [extra] does not have: line 212 reads
    [extra[name]], the pass cannot return. *)
Lemma update_config_placeholder_raises config (extra : gmap string string)
  p name v :
  wf config ->
  entry_at p name (Leaf v) config ->
  is_placeholder extra v = true ->
  extra !! name = None ->
  returns_normally (_update_config config (Some extra)) = false.
Proof.
  intros Hwf Hentry Hp Hname.
  destruct (_update_config config (Some extra)) as [config'|e s] eqn:Hrun;
    [|done].
  exfalso.
  assert (Hne : Py.dict_truthy (Some extra) = true).
  { destruct v as [s| | |]; try done. unfold is_placeholder in Hp.
    apply andb_true_iff in Hp as [_ Hc]. unfold Py.contains in Hc.
    destruct (extra !! Py.slice_1_m1 s) eqn:Hk; [|done].
    by eapply dict_truthy_lookup. }
  apply update_config_merged in Hrun; [|done|done].
  destruct (merged_get _ _ _ _ _ _ _ Hrun Hentry) as (c' & Hget & Hc).
  simpl in Hc. inversion Hc; subst; congruence.
Qed.

(** ** Claims *)

(** C1 (the code departs from the claim).  The claim: a scalar [<k>] under
    a key [name], with [k] in [extra] and [name] not in [extra], becomes
    [extra[k]].  On the end-to-end document of the specification the
    mapping branch raises [KeyError('model')] and leaves the entry as it
    was, because line 212 assigns [extra[name]]; the sequence branch (line
    227) assigns [extra[value[1:-1]]] and does resolve the same token. *)
Theorem mapping_placeholder_raises_KeyError :
  _update_config scenario_doc (Some scenario_cli)
    = Raised (KeyError "model") scenario_doc
  /\ _update_config (Sequence [Leaf (SStr "<model_name>")]) (Some scenario_cli)
    = Returned (Sequence [Leaf (SStr "qwen-max")]).
Proof. split; vm_compute; reflexivity. Qed.

(** C5 (the code departs from the claim).  The claim: a scalar under a
    key of [extra] holds the override of that key after the merge.  On the
    end-to-end document of the specification [retries] is a key of [extra]
    and is still [3] after the merge: the pass stopped at [model], the
    entry before it, on the [KeyError] of line 212 (the defect of C1), and
    never reached [retries].  So the claim does not hold for every tree
    and every [extra]. *)
Theorem direct_match_lost_after_KeyError :
  scenario_cli !! "retries" = Some "5"
  /\ entry_at [] "retries" (Leaf (SInt 3)) scenario_doc
  /\ _update_config scenario_doc (Some scenario_cli)
     = Raised (KeyError "model") scenario_doc
  /\ entry_at [] "retries" (Leaf (SInt 3))
       (outcome_state (_update_config scenario_doc (Some scenario_cli)))
  /\ ~ (forall config (extra : gmap string string) p name v x,
          wf config ->
          entry_at p name (Leaf v) config ->
          extra !! name = Some x ->
          entry_at p name (Leaf (SStr x))
            (outcome_state (_update_config config (Some extra)))).
Proof.
  assert (Hrun : _update_config scenario_doc (Some scenario_cli)
                 = Raised (KeyError "model") scenario_doc)
    by (vm_compute; reflexivity).
  split; [vm_compute; reflexivity|]. split; [reflexivity|].
  split; [exact Hrun|]. split; [by rewrite Hrun|].
  intros H.
  specialize (H scenario_doc scenario_cli [] "retries" (SInt 3) "5").
  rewrite Hrun in H. simpl in H.
  assert (Hno : entry_at [] "retries" (Leaf (SStr "5")) scenario_doc -> False)
    by (unfold entry_at; simpl; congruence).
  apply Hno, H; [vm_compute; exact I | reflexivity | vm_compute; reflexivity].
Qed.

(** X20.  When the pass returns, a scalar entry [(name, value)] of any
    mapping of the tree, with [name] a key of [extra], holds [extra[name]],
    whether or not [value] is a placeholder (no hypothesis on [v]). *)
Theorem direct_match_wins config (extra : gmap string string) config'
  p name v x :
  wf config ->
  entry_at p name (Leaf v) config ->
  extra !! name = Some x ->
  _update_config config (Some extra) = Returned config' ->
  entry_at p name (Leaf (SStr x)) config'.
Proof.
  intros Hwf Hentry Hx Hrun.
  assert (Hne : Py.dict_truthy (Some extra) = true)
    by (by eapply dict_truthy_lookup).
  pose proof (update_config_merged _ _ _ Hwf Hne Hrun) as Hm.
  by eapply merged_direct_entry.
Qed.

Lemma direct_match_wins_witness :
  entry_at [Key "llm"; Idx 0] "model" (Leaf (SStr "gpt"))
    (Mapping [("llm", Sequence [Mapping [("model", Leaf (SStr "gpt"))]])]).
Proof.
  apply (direct_match_wins direct_doc direct_extra _ [Key "llm"; Idx 0]
           "model" (SStr "<model_name>") "gpt").
  - vm_compute. exact I.
  - reflexivity.
  - vm_compute. reflexivity.
  - vm_compute. reflexivity.
Defined.

(** C7.  With [extra] absent or empty the pass returns the tree it was
    given, and does so whatever the traversal would have done: the
    traversal is not run. *)
Theorem update_config_empty_is_noop config :
  _update_config config None = Returned config
  /\ _update_config config (Some ∅) = Returned config
  /\ forall trav,
       update_config_with trav config None = Returned config
       /\ update_config_with trav config (Some ∅) = Returned config.
Proof.
  assert (H : forall trav,
             update_config_with trav config None = Returned config
             /\ update_config_with trav config (Some ∅) = Returned config).
  { intros trav. unfold update_config_with. simpl.
    by rewrite bool_decide_eq_true_2. }
  split; [apply H | split; [apply H | exact H]].
Qed.

(** C10.  A pass that returns keeps the shape of the tree: at every path
    the node has the kind it had, a mapping its keys in their order, a
    sequence its length; only scalars are replaced, by scalars. *)
Theorem update_config_preserves_shape config extra config' :
  wf config ->
  _update_config config extra = Returned config' ->
  same_shape config config'
  /\ forall p, kind_of <$> get p config' = kind_of <$> get p config.
Proof.
  intros Hwf Hrun.
  pose proof (update_config_same_shape _ _ _ Hwf Hrun) as Hs.
  split; [done|]. intros p.
  pose proof (same_shape_get p _ _ Hs) as Hp.
  inversion Hp as [c c' Hc|]; simpl; [|done].
  f_equal. symmetry. by apply same_shape_kind.
Qed.

Lemma update_config_preserves_shape_witness :
  same_shape shape_doc shape_result
  /\ forall p, kind_of <$> get p shape_result = kind_of <$> get p shape_doc.
Proof.
  apply (update_config_preserves_shape shape_doc
           (Some {["retries" := "5"; "model" := "gpt"]})).
  - vm_compute. exact I.
  - vm_compute. reflexivity.
Defined.

(** ** The command line *)

Lemma py_range_pairs_in_bounds n i :
  i ∈ py_range 1 (n - 1) 2 -> i + 1 < n.
Proof.
  unfold py_range. intros Hi.
  apply list_elem_of_fmap in Hi as (j & -> & Hj).
  apply elem_of_seq in Hj as [_ Hj]. rewrite Nat.add_0_l in Hj.
  pose proof (Nat.Div0.mul_div_le (n - 1 - 1 + 2 - 1) 2). lia.
Qed.



Lemma py_range_pairs n :
  py_range 1 (S (2 * n) - 1) 2 = (fun i => 1 + i * 2) <$> seq 0 n.
Proof.
  unfold py_range. f_equal. f_equal.
  destruct n as [|n]; [done|].
  replace (S (2 * S n) - 1 - 1 + 2 - 1) with (S n * 2) by lia.
  apply Nat.div_mul. done.
Qed.

Lemma args_loop_pairs pairs : forall pre d,
  Forall (fun kv => Py.startswith kv.1 "--" = true) pairs ->
  args_loop (pre ++ pair_tokens pairs)
            ((fun i => length pre + i * 2) <$> seq 0 (length pairs)) d
  = Returned (pairs_map d pairs).
Proof.
  induction pairs as [|[key value] rest IH]; intros pre d Hall; [done|].
  apply Forall_cons in Hall as [Hkey Hall]. simpl in Hkey.
  change (pair_tokens ((key, value) :: rest))
    with (key :: value :: pair_tokens rest).
  simpl. rewrite Nat.add_0_r.
  rewrite (lookup_app_r pre) by done.
  rewrite (lookup_app_r pre) by lia.
  rewrite Nat.sub_diag.
  replace (length pre + 1 - length pre) with 1 by lia. simpl.
  rewrite Hkey.
  specialize (IH (pre ++ [key; value]) (<[Py.slice_2 key := value]> d) Hall).
  rewrite <- app_assoc in IH. simpl in IH. rewrite <- IH.
  f_equal. rewrite <- fmap_S_seq, <- list_fmap_compose.
  apply list_fmap_ext. intros _ i _. simpl. rewrite length_app. simpl. lia.
Qed.

(** X1.  With one token before them, [--key value] pairs are all read:
    the result maps every key, prefix stripped, to its value, a repeated
    key to its last value. *)
Lemma parse_args_after_first_token tok0 pairs :
  Forall (fun kv => Py.startswith kv.1 "--" = true) pairs ->
  parse_args (tok0 :: pair_tokens pairs) = Returned (pairs_map ∅ pairs).
Proof.
  intros Hall. unfold parse_args.
  assert (Hlen : length (tok0 :: pair_tokens pairs) = S (2 * length pairs)).
  { simpl. f_equal. clear Hall. unfold pair_tokens.
    induction pairs as [|kv rest IH]; [done|].
    rewrite fmap_cons. simpl. rewrite IH. lia. }
  rewrite Hlen, py_range_pairs.
  by apply (args_loop_pairs pairs [tok0] ∅).
Qed.

(** C2 (the code departs from the claim).  The claim: a list made only of
    [--key value] pairs yields the map of those pairs.  The loop of line
    168 starts at index 1: the pair [--a 1] alone yields the empty map, and
    on two pairs the value [1] is taken for a key and the assertion
    fails. *)
Theorem parse_args_skips_first_token :
  parse_args ["--a"; "1"] = Returned ∅
  /\ parse_args ["--a"; "1"; "--b"; "2"]
     = Raised (AssertionError param_not_correct ["--a"; "1"; "--b"; "2"]) ∅.
Proof. split; vm_compute; reflexivity. Qed.




(** ** The two passes of [from_task] *)

(** The two passes of lines 107-112: the environment pass, then the
    command-line pass, on the same tree; a scalar entry whose key is in
    both maps holds the environment value after the first pass and the
    command-line value after the second. *)
Theorem cli_overrides_win
  config (envs : gmap string string) unknown (cli : gmap string string)
  config2 p name v ve vc :
  wf config ->
  entry_at p name (Leaf v) config ->
  envs !! name = Some ve ->
  parse_args unknown = Returned cli ->
  cli !! name = Some vc ->
  merge_passes config envs unknown = Returned config2 ->
  (exists config1,
      _update_config config (Some envs) = Returned config1
      /\ _update_config config1 (Some cli) = Returned config2
      /\ entry_at p name (Leaf (SStr ve)) config1)
  /\ entry_at p name (Leaf (SStr vc)) config2.
Proof.
  intros Hwf Hentry Hve Hparse Hvc Hrun. unfold merge_passes in Hrun.
  destruct (_update_config config (Some envs)) as [config1|e s] eqn:H1;
    [|done].
  simpl in Hrun. rewrite Hparse in Hrun.
  assert (Hm1 : merged envs AtRoot config config1).
  { apply update_config_merged; [done | by eapply dict_truthy_lookup | done]. }
  pose proof (merged_direct_entry _ _ _ _ _ _ _ _ Hm1 Hentry Hve) as He1.
  assert (Hwf1 : wf config1).
  { eapply same_shape_wf; [|exact Hwf]. by eapply merged_same_shape. }
  assert (Hm2 : merged cli AtRoot config1 config2).
  { apply update_config_merged; [done | by eapply dict_truthy_lookup | done]. }
  split.
  - exists config1. done.
  - by eapply merged_direct_entry.
Qed.

Lemma cli_overrides_win_witness :
  (exists config1,
      _update_config retries_doc (Some retries_env) = Returned config1
      /\ _update_config config1 (Some {["retries" := "5"]})
         = Returned (Mapping [("retries", Leaf (SStr "5"))])
      /\ entry_at [] "retries" (Leaf (SStr "4")) config1)
  /\ entry_at [] "retries" (Leaf (SStr "5"))
       (Mapping [("retries", Leaf (SStr "5"))]).
Proof.
  apply (cli_overrides_win retries_doc retries_env ["run"; "--retries"; "5"]
           {["retries" := "5"]} _ [] "retries" (SInt 3) "4" "5").
  - vm_compute. exact I.
  - reflexivity.
  - vm_compute. reflexivity.
  - vm_compute. reflexivity.
  - vm_compute. reflexivity.
  - vm_compute. reflexivity.
Defined.

(** ** The finisher and the classifier *)

Lemma fill_field_Mapping key empty d :
  fill_field key empty (Mapping d)
  = Returned (Mapping (match dict_get d key with
                       | None | Some (Leaf SNull) => dict_set d key empty
                       | Some _ => d
                       end)).
Proof.
  unfold fill_field, hasattr, getattr_default, getattr.
  destruct (dict_get d key) as [[kvs|xs|[s|z|b|]]|]; done.
Qed.

Lemma fill_field_present key empty d v :
  dict_get d key = Some v -> is_None v = false ->
  fill_field key empty (Mapping d) = Returned (Mapping d).
Proof.
  intros Hv Hn. rewrite fill_field_Mapping, Hv.
  by destruct v as [kvs|xs|[s|z|b|]].
Qed.

Lemma fill_missing_fields_Mapping d :
  exists d',
    fill_missing_fields (Mapping d) = Returned (Mapping d')
    /\ dict_get d' "tools"
       = Some (match dict_get d "tools" with
               | None | Some (Leaf SNull) => Mapping []
               | Some v => v
               end)
    /\ dict_get d' "callbacks"
       = Some (match dict_get d "callbacks" with
               | None | Some (Leaf SNull) => Sequence []
               | Some v => v
               end)
    /\ forall k, k <> "tools" -> k <> "callbacks" -> dict_get d' k = dict_get d k.
Proof.
  unfold fill_missing_fields. rewrite fill_field_Mapping. simpl.
  rewrite fill_field_Mapping. eexists. split; [reflexivity|].
  set (d1 := match dict_get d "tools" with
             | None | Some (Leaf SNull) => dict_set d "tools" (Mapping [])
             | Some _ => d
             end).
  assert (Ht : dict_get d1 "tools"
               = Some (match dict_get d "tools" with
                       | None | Some (Leaf SNull) => Mapping []
                       | Some v => v
                       end)).
  { unfold d1. destruct (dict_get d "tools") as [[kvs|xs|[s|z|b|]]|] eqn:E;
      try done; apply dict_get_set_eq. }
  assert (Ho : forall k, k <> "tools" -> dict_get d1 k = dict_get d k).
  { intros k Hk. unfold d1.
    destruct (dict_get d "tools") as [[kvs|xs|[s|z|b|]]|]; try done;
      by apply dict_get_set_ne. }
  split; [|split].
  - destruct (dict_get d1 "callbacks") as [[kvs|xs|[s|z|b|]]|]; try done;
      by rewrite dict_get_set_ne.
  - rewrite <- (Ho "callbacks") by done.
    destruct (dict_get d1 "callbacks") as [[kvs|xs|[s|z|b|]]|] eqn:E;
      try done; apply dict_get_set_eq.
  - intros k Hk1 Hk2. rewrite <- (Ho k) by done.
    destruct (dict_get d1 "callbacks") as [[kvs|xs|[s|z|b|]]|]; try done;
      by apply dict_get_set_ne.
Qed.

Lemma fill_missing_fields_present d vt vc :
  dict_get d "tools" = Some vt -> is_None vt = false ->
  dict_get d "callbacks" = Some vc -> is_None vc = false ->
  fill_missing_fields (Mapping d) = Returned (Mapping d).
Proof.
  intros Ht Hnt Hc Hnc. unfold fill_missing_fields.
  rewrite (fill_field_present _ _ _ _ Ht Hnt). simpl.
  by rewrite (fill_field_present _ _ _ _ Hc Hnc).
Qed.

(** C8.  A second application of [fill_missing_fields] changes nothing
    (the two calls are chained on the same object); one application on a
    [DictConfig] returns, puts an empty mapping under [tools] and an empty
    sequence under [callbacks] where the key is absent or null, keeps the
    value that is there otherwise, and touches no other key. *)
Theorem fill_missing_fields_idempotent config d :
  and_then (fill_missing_fields config) fill_missing_fields
    = fill_missing_fields config
  /\ exists d',
       fill_missing_fields (Mapping d) = Returned (Mapping d')
       /\ dict_get d' "tools"
          = Some (match dict_get d "tools" with
                  | None | Some (Leaf SNull) => Mapping []
                  | Some v => v
                  end)
       /\ dict_get d' "callbacks"
          = Some (match dict_get d "callbacks" with
                  | None | Some (Leaf SNull) => Sequence []
                  | Some v => v
                  end)
       /\ (forall k, k <> "tools" -> k <> "callbacks" ->
                     dict_get d' k = dict_get d k)
       /\ (forall vt vc,
             dict_get d "tools" = Some vt -> is_None vt = false ->
             dict_get d "callbacks" = Some vc -> is_None vc = false ->
             d' = d).
Proof.
  split.
  - destruct config as [d0|xs|v]; [|done|done].
    destruct (fill_missing_fields_Mapping d0) as (d' & -> & Ht & Hc & _).
    simpl. eapply fill_missing_fields_present; eauto.
    + by destruct (dict_get d0 "tools") as [[kvs|xs|[s|z|b|]]|].
    + by destruct (dict_get d0 "callbacks") as [[kvs|xs|[s|z|b|]]|].
  - destruct (fill_missing_fields_Mapping d) as (d' & Hrun & Ht & Hc & Ho).
    exists d'. repeat split; try done.
    intros vt vc Hvt Hnt Hvc Hnc.
    rewrite (fill_missing_fields_present _ _ _ Hvt Hnt Hvc Hnc) in Hrun.
    congruence.
Qed.

(** C9.  [is_workflow] answers [True] exactly when [config.name] is the
    string [workflow.yaml] or [workflow.yml]; it answers ([False] unless
    that) for every other name that is set, [agent.yaml] and [agent.yml]
    among them; it raises when [name] is missing or null. *)
Theorem is_workflow_spec config :
  (is_workflow config = Value true <->
     getattr config "name" = Value (Leaf (SStr "workflow.yaml"))
     \/ getattr config "name" = Value (Leaf (SStr "workflow.yml")))
  /\ (forall name, getattr config "name" = Value name ->
        is_None name = false ->
        exists b, is_workflow config = Value b)
  /\ (getattr config "name" = Value (Leaf (SStr "agent.yaml"))
      \/ getattr config "name" = Value (Leaf (SStr "agent.yml")) ->
      is_workflow config = Value false)
  /\ ((exists e, getattr config "name" = Error e)
      \/ getattr config "name" = Value (Leaf SNull) ->
      exists e, is_workflow config = Error e).
Proof.
  unfold is_workflow.
  destruct (getattr config "name") as [name|e] eqn:Hname.
  - repeat split.
    + destruct name as [kvs|xs|[s|z|b|]]; simpl; try done.
      rewrite orb_false_r. intros [= H]. apply orb_true_iff in H as [H|H];
        apply String.eqb_eq in H; subst; auto.
    + intros [[= ->]|[= ->]]; done.
    + intros name' [= <-] ->. by eexists.
    + intros [[= ->]|[= ->]]; done.
    + intros [[e He]|[= ->]]; [done | by eexists].
  - repeat split; try done.
    + intros [H|H]; done.
    + intros [H|H]; done.
    + intros _. by eexists.
Qed.

(** ** The MCP projection *)

Lemma elem_of_dict_set d k v kv :
  kv ∈ dict_set d k v -> kv ∈ d \/ kv = (k, v).
Proof.
  induction d as [|[k0 v0] d IH]; simpl.
  - intros H. apply list_elem_of_singleton in H. by right.
  - destruct (String.eqb_spec k0 k) as [->|_]; intros H;
      apply elem_of_cons in H as [->|H].
    + by right.
    + left. apply elem_of_cons. by right.
    + left. apply elem_of_cons. by left.
    + destruct (IH H) as [H'|H']; [left; apply elem_of_cons; by right | by right].
Qed.

Lemma mcp_loop_entries items : forall servers kv,
  kv ∈ mcp_loop items servers -> kv ∈ servers \/ kv ∈ items.
Proof.
  induction items as [|[server server_config] rest IH]; intros servers kv;
    simpl; [by left|].
  destruct (py_truthy _); intros H; apply IH in H as [H|H].
  - apply elem_of_dict_set in H as [H| ->]; [by left|].
    right. apply elem_of_cons. by left.
  - right. apply elem_of_cons. by right.
  - by left.
  - right. apply elem_of_cons. by right.
Qed.

(** C4 as stated fails: the projected sub-tree of [a] is not [{x: 1}]. *)
Lemma project_mcp_counterexample :
  convert_mcp_servers_to_json tools_doc
  <> Value (Mapping
              [("mcpServers",
                Mapping [("a", Mapping [("x", Leaf (SInt 1))]);
                         ("c", Mapping [("x", Leaf (SInt 3))])])]).
Proof. vm_compute. congruence. Qed.

(** C4, amended.  On the tools mapping [{a: {mcp: true, x: 1},
    b: {mcp: false, x: 2}, c: {x: 3}}] the projection is
    [{mcpServers: {a: {mcp: true, x: 1}, c: {x: 3}}}]: [b] is left out, [c]
    is taken by default, and each projected entry is the whole sub-tree of
    its tool, the [mcp] attribute included (so it is for every tools
    mapping). *)
Theorem project_mcp_keeps_whole_entries :
  convert_mcp_servers_to_json tools_doc
  = Value (Mapping
             [("mcpServers",
               Mapping [("a", Mapping [("mcp", Leaf (SBool true));
                                       ("x", Leaf (SInt 1))]);
                        ("c", Mapping [("x", Leaf (SInt 3))])])])
  /\ forall items server server_config,
       (server, server_config) ∈ mcp_loop items [] ->
       (server, server_config) ∈ items.
Proof.
  split; [vm_compute; reflexivity|].
  intros items server server_config H.
  apply mcp_loop_entries in H as [H|H]; [|done]. by apply elem_of_nil in H.
Qed.

(** ** What [from_task] does after the passes *)

Lemma setattr_keeps_other config key v config' st :
  setattr config key v = Returned config' ->
  st <> Key key ->
  get [st] config' = get [st] config.
Proof.
  destruct config as [d|xs|s]; simpl; [|done|done].
  intros [= <-] Hne. destruct st as [k|i]; simpl; [|done].
  rewrite dict_get_set_ne; [done|]. intros ->. done.
Qed.

Lemma fill_field_keeps key empty config config' st c :
  fill_field key empty config = Returned config' ->
  get [st] config = Some c ->
  (is_None c = true -> st <> Key key) ->
  get [st] config' = Some c.
Proof.
  destruct config as [d|xs|s]; [|done|done].
  rewrite fill_field_Mapping. intros [= <-].
  destruct st as [k|i]; simpl; [|done].
  destruct (dict_get d k) as [c0|] eqn:Hk; [|done]. intros [= ->] Hnn.
  destruct (String.eqb_spec key k) as [->|Hne].
  - rewrite Hk. destruct c as [kvs|xs|[s|z|b|]]; try (by rewrite Hk).
    by destruct Hnn.
  - destruct (dict_get d key) as [[kvs|xs|[s|z|b|]]|];
      rewrite ?dict_get_set_ne by done; by rewrite Hk.
Qed.

Lemma get_Leaf_cons st p v : get (st :: p) (Leaf v) = None.
Proof. by destruct st. Qed.

(** Lines 115-119 on the root entries: what the passes left under a root
    key is still there, the keys [local_dir] and [name] and a null [tools]
    or [callbacks] apart. *)
Lemma from_task_tail_keeps
  config name local_dir envs unknown config2 final st c0 :
  merge_passes config envs unknown = Returned config2 ->
  from_task config name local_dir envs unknown = Returned final ->
  st <> Key "local_dir" -> st <> Key "name" ->
  (is_None c0 = true -> st <> Key "tools" /\ st <> Key "callbacks") ->
  get [st] config2 = Some c0 ->
  get [st] final = Some c0.
Proof.
  unfold from_task. intros Hpass Hrun Hl Hn Hnull H0.
  rewrite Hpass in Hrun. simpl in Hrun.
  destruct (setattr config2 "local_dir" _) as [c3|e s] eqn:H3; [|done].
  simpl in Hrun.
  destruct (setattr c3 "name" _) as [c4|e s] eqn:H4; [|done].
  simpl in Hrun. unfold fill_missing_fields in Hrun.
  destruct (fill_field "tools" _ c4) as [c5|e s] eqn:H5; [|done].
  simpl in Hrun.
  rewrite <- (setattr_keeps_other _ _ _ _ _ H3 Hl) in H0.
  rewrite <- (setattr_keeps_other _ _ _ _ _ H4 Hn) in H0.
  apply (fill_field_keeps _ _ _ _ _ _ H5) in H0; [|by intros H; apply Hnull].
  apply (fill_field_keeps _ _ _ _ _ _ Hrun) in H0; [|by intros H; apply Hnull].
  done.
Qed.

(** X19.  Everything the passes left at a path that starts at a root key
    other than [local_dir] and [name] is in the configuration [from_task]
    returns, at the same path, null values included; the one exception is
    a null root [tools] or [callbacks], which [fill_missing_fields]
    replaces. *)
Lemma from_task_keeps_entries
  config name local_dir envs unknown config2 final st p c :
  merge_passes config envs unknown = Returned config2 ->
  from_task config name local_dir envs unknown = Returned final ->
  st <> Key "local_dir" -> st <> Key "name" ->
  get (st :: p) config2 = Some c ->
  (p = [] -> is_None c = true -> st <> Key "tools" /\ st <> Key "callbacks") ->
  get (st :: p) final = Some c.
Proof.
  intros Hpass Hrun Hl Hn Hget Hc.
  rewrite get_cons in Hget |- *.
  destruct (get [st] config2) as [c0|] eqn:H0; [|done]. simpl in Hget.
  rewrite (from_task_tail_keeps _ _ _ _ _ _ _ _ c0 Hpass Hrun Hl Hn);
    [done| |done].
  intros Hnull. destruct c0 as [kvs|xs|[s|z|b|]]; try done.
  destruct p as [|st' p]; [|by rewrite get_Leaf_cons in Hget].
  injection Hget as <-. by apply Hc.
Qed.

(** [config.name = name] comes after the passes: a root entry called
    [name] ends as the file name, whatever the overrides said. *)
Lemma from_task_sets_name_last :
  from_task (Mapping [("name", Leaf (SStr "x"))]) "agent.yaml" "/tmp"
            {["name" := "e"]} ["run"; "--name"; "c"]
  = Returned (Mapping [("name", Leaf (SStr "agent.yaml"));
                       ("local_dir", Leaf (SStr "/tmp"));
                       ("tools", Mapping []);
                       ("callbacks", Sequence [])]).
Proof. vm_compute. reflexivity. Qed.

Lemma parse_args_after_first_token_witness :
  parse_args ("run" :: pair_tokens [("--model", "a"); ("--model", "b")])
  = Returned (pairs_map ∅ [("--model", "a"); ("--model", "b")]).
Proof.
  apply (parse_args_after_first_token "run" [("--model", "a"); ("--model", "b")]).
  repeat constructor.
Defined.

(** ** More on the command line *)

Lemma args_loop_outcome unknown idxs : forall d,
  (forall i, i ∈ idxs -> i + 1 < length unknown) ->
  if forallb (fun idx => match unknown !! idx with
                         | Some key => Py.startswith key "--"
                         | None => true
                         end) idxs
  then exists d', args_loop unknown idxs d = Returned d'
  else exists d', args_loop unknown idxs d
                  = Raised (AssertionError param_not_correct unknown) d'.
Proof.
  induction idxs as [|i rest IH]; intros d Hb; simpl; [by eexists|].
  assert (Hi : i + 1 < length unknown)
    by (apply Hb; apply elem_of_cons; by left).
  destruct (lookup_lt_is_Some_2 unknown i) as [ki Hki]; [lia|].
  destruct (lookup_lt_is_Some_2 unknown (i + 1)) as [vi Hvi]; [lia|].
  rewrite Hki, Hvi.
  destruct (Py.startswith ki "--"); simpl; [|by eexists].
  apply IH. intros j Hj. apply Hb. apply elem_of_cons. by right.
Qed.

(** X2.  [parse_args] returns exactly when every token in key position
    begins with [--]; otherwise it raises the assertion error of line 172,
    and nothing else (no [IndexError]: the loop bound keeps [idx + 1] in
    range). *)
Theorem parse_args_outcome unknown :
  if key_tokens_ok unknown
  then exists d, parse_args unknown = Returned d
  else exists d, parse_args unknown
                 = Raised (AssertionError param_not_correct unknown) d.
Proof.
  unfold key_tokens_ok, parse_args.
  destruct unknown as [|tok0 rest] eqn:Hu; [by eexists|].
  rewrite <- Hu. apply args_loop_outcome.
  intros i. apply py_range_pairs_in_bounds.
Qed.

Lemma args_loop_app unknown tail idxs : forall d m,
  (forall i, i ∈ idxs -> i + 1 < length unknown) ->
  args_loop (unknown ++ tail) idxs d = Returned m
  <-> args_loop unknown idxs d = Returned m.
Proof.
  induction idxs as [|i rest IH]; intros d m Hb; simpl; [done|].
  assert (Hi : i + 1 < length unknown)
    by (apply Hb; apply elem_of_cons; by left).
  rewrite !lookup_app_l by lia.
  destruct (unknown !! i) as [ki|]; [|done].
  destruct (unknown !! (i + 1)) as [vi|]; [|done].
  destruct (Py.startswith ki "--"); [|done].
  apply IH. intros j Hj. apply Hb. apply elem_of_cons. by right.
Qed.

Lemma py_range_pairs_even n :
  py_range 1 (S (S (2 * n)) - 1) 2 = (fun i => 1 + i * 2) <$> seq 0 n.
Proof.
  unfold py_range. f_equal. f_equal.
  replace (S (S (2 * n)) - 1 - 1 + 2 - 1) with (1 + n * 2) by lia.
  rewrite Nat.div_add by done. done.
Qed.

(** X3.  A key that comes last, without a value, is dropped in silence:
    after an odd number of tokens (the first one and whole pairs) one more
    token changes nothing in what [parse_args] returns. *)
Theorem parse_args_drops_dangling_key unknown tok m :
  Nat.odd (length unknown) = true ->
  parse_args (unknown ++ [tok]) = Returned m <-> parse_args unknown = Returned m.
Proof.
  intros Hodd. apply Nat.odd_spec in Hodd as [n Hn].
  assert (Hlen : length unknown = S (2 * n)) by lia.
  unfold parse_args.
  destruct unknown as [|tok0 rest] eqn:Hu; [done|]. rewrite <- Hu in *.
  replace (length (unknown ++ [tok])) with (S (S (2 * n)))
    by (rewrite length_app; simpl; lia).
  destruct (unknown ++ [tok]) as [|x l] eqn:Happ.
  { apply (f_equal length) in Happ. rewrite length_app in Happ.
    simpl in Happ. lia. }
  rewrite <- Happ, Hlen, py_range_pairs_even, py_range_pairs.
  apply args_loop_app. intros i Hi.
  apply py_range_pairs_in_bounds. by rewrite Hlen, py_range_pairs.
Qed.

Lemma parse_args_drops_dangling_key_witness :
  parse_args (["run"; "--a"; "1"] ++ ["--b"]) = Returned {["a" := "1"]}
  <-> parse_args ["run"; "--a"; "1"] = Returned {["a" := "1"]}.
Proof.
  apply (parse_args_drops_dangling_key ["run"; "--a"; "1"] "--b").
  reflexivity.
Defined.

Lemma args_loop_head a b rest idxs : forall d m,
  (forall i, i ∈ idxs -> 1 <= i) ->
  args_loop (a :: rest) idxs d = Returned m
  <-> args_loop (b :: rest) idxs d = Returned m.
Proof.
  induction idxs as [|i idxs IH]; intros d m Hb; simpl; [done|].
  assert (Hi : 1 <= i) by (apply Hb; apply elem_of_cons; by left).
  destruct i as [|i]; [lia|]. simpl.
  destruct (rest !! i) as [ki|]; [|done].
  destruct (rest !! (i + 1)) as [vi|]; [|done].
  destruct (Py.startswith ki "--"); [|done].
  apply IH. intros j Hj. apply Hb. apply elem_of_cons. by right.
Qed.

(** X4.  The first token is never read: whatever it is, a key, a value or
    a sub-command, the map [parse_args] returns is the same. *)
Theorem parse_args_ignores_first_token a b rest m :
  parse_args (a :: rest) = Returned m <-> parse_args (b :: rest) = Returned m.
Proof.
  unfold parse_args. simpl length. apply args_loop_head.
  intros i Hi. unfold py_range in Hi.
  apply list_elem_of_fmap in Hi as (j & -> & _). lia.
Qed.

(** ** A pass that raises *)

Lemma dict_get_app_fresh pre k rest :
  k ∉ keys pre -> dict_get (pre ++ rest) k = dict_get rest k.
Proof.
  induction pre as [|[k' v'] pre IH]; simpl; [done|].
  intros Hk. apply not_elem_of_cons in Hk as [Hne Hk].
  destruct (String.eqb_spec k' k) as [->|_]; [done | by apply IH].
Qed.

Lemma is_placeholder_lookup extra s :
  is_placeholder extra (SStr s) = true ->
  exists x, extra !! Py.slice_1_m1 s = Some x.
Proof.
  unfold is_placeholder, Py.contains. intros H.
  apply andb_true_iff in H as [_ H].
  destruct (extra !! Py.slice_1_m1 s) as [x|]; [by exists x | done].
Qed.

Section LoopFailures.

Variable extra : gmap string string.
Variable traverse : ConfigTree -> Outcome ConfigTree.

(** A mapping loop that raises has rewritten the entries before the one
    that raised and has left the ones after it alone. *)
Lemma dict_loop_raised items : forall pre e d',
  NoDup (keys (pre ++ items)) ->
  dict_loop extra traverse items (pre ++ items) = Raised e d' ->
  exists seen seen' kv v' rest,
    items = seen ++ kv :: rest
    /\ d' = pre ++ seen' ++ (kv.1, v') :: rest
    /\ Forall2 (entry_ok extra traverse) seen seen'
    /\ entry_raised extra traverse e kv v'.
Proof.
  induction items as [|[name value] rest IH]; intros pre e d' Hnd; simpl;
    [done|].
  pose proof (NoDup_keys_fresh _ _ _ _ Hnd) as Hfresh.
  assert (Hstep : forall v1,
    dict_loop extra traverse rest (pre ++ (name, v1) :: rest) = Raised e d' ->
    entry_ok extra traverse (name, value) (name, v1) ->
    exists seen seen' kv v' rest',
      (name, value) :: rest = seen ++ kv :: rest'
      /\ d' = pre ++ seen' ++ (kv.1, v') :: rest'
      /\ Forall2 (entry_ok extra traverse) seen seen'
      /\ entry_raised extra traverse e kv v').
  { intros v1 Hrun Hok.
    rewrite (cons_middle (name, v1) pre rest), app_assoc in Hrun.
    apply IH in Hrun as (seen & seen' & kv & v' & rest' & -> & -> & Hall & Hr);
      [|by rewrite (keys_app_middle _ _ value)].
    exists ((name, value) :: seen), ((name, v1) :: seen'), kv, v', rest'.
    rewrite <- app_assoc.
    split; [done|]. split; [done|]. split; [by constructor | done]. }
  assert (Hhere : forall v1,
    entry_raised extra traverse e (name, value) v1 ->
    exists seen seen' kv v' rest',
      (name, value) :: rest = seen ++ kv :: rest'
      /\ pre ++ (name, v1) :: rest = pre ++ seen' ++ (kv.1, v') :: rest'
      /\ Forall2 (entry_ok extra traverse) seen seen'
      /\ entry_raised extra traverse e kv v').
  { intros v1 Hr. exists [], [], (name, value), v1, rest.
    split; [done|]. split; [done|]. split; [constructor | done]. }
  destruct value as [kvs|xs|s].
  - destruct (traverse (Mapping kvs)) as [c'|e0 c'] eqn:Hc;
      rewrite dict_set_app_fresh by done.
    + intros Hrun. apply (Hstep c' Hrun). by split.
    + intros [= <- <-]. by apply Hhere.
  - destruct (traverse (Sequence xs)) as [c'|e0 c'] eqn:Hc;
      rewrite dict_set_app_fresh by done.
    + intros Hrun. apply (Hstep c' Hrun). by split.
    + intros [= <- <-]. by apply Hhere.
  - destruct (extra !! name) as [x|] eqn:Hx.
    + rewrite !dict_set_app_fresh by done.
      intros Hrun. apply (Hstep (Leaf (SStr x))).
      * by destruct (is_placeholder extra s).
      * split; [done|]. simpl. by rewrite Hx.
    + destruct (is_placeholder extra s) eqn:Hp.
      * intros [= <- <-]. apply Hhere. by repeat split.
      * intros Hrun. apply (Hstep (Leaf s) Hrun).
        split; [done|]. simpl. by rewrite Hx.
Qed.

(** A sequence loop raises only inside a container element. *)
Lemma list_loop_raised elems : forall pre e l',
  list_loop extra traverse elems (length pre) (pre ++ elems) = Raised e l' ->
  exists seen seen' v v' rest,
    elems = seen ++ v :: rest
    /\ l' = pre ++ seen' ++ v' :: rest
    /\ Forall2 (elem_ok extra traverse) seen seen'
    /\ elem_raised traverse e v v'.
Proof.
  induction elems as [|value rest IH]; intros pre e l'; simpl; [done|].
  assert (Hset : forall v1,
    <[length pre := v1]> (pre ++ value :: rest) = pre ++ v1 :: rest).
  { intros v1. rewrite insert_app_r_alt by done. by rewrite Nat.sub_diag. }
  assert (Hstep : forall v1,
    list_loop extra traverse rest (S (length pre)) (pre ++ v1 :: rest)
      = Raised e l' ->
    elem_ok extra traverse value v1 ->
    exists seen seen' v v' rest',
      value :: rest = seen ++ v :: rest'
      /\ l' = pre ++ seen' ++ v' :: rest'
      /\ Forall2 (elem_ok extra traverse) seen seen'
      /\ elem_raised traverse e v v').
  { intros v1 Hrun Hok.
    rewrite (cons_middle v1 pre rest), app_assoc in Hrun.
    replace (S (length pre)) with (length (pre ++ [v1])) in Hrun
      by (rewrite length_app; simpl; lia).
    apply IH in Hrun as (seen & seen' & v & v' & rest' & -> & -> & Hall & Hr).
    exists (value :: seen), (v1 :: seen'), v, v', rest'.
    rewrite <- app_assoc.
    split; [done|]. split; [done|]. split; [by constructor | done]. }
  destruct value as [kvs|xs|s].
  - destruct (traverse (Mapping kvs)) as [c'|e0 c'] eqn:Hc; rewrite Hset.
    + intros Hrun. by apply (Hstep c' Hrun).
    + intros [= <- <-]. exists [], [], (Mapping kvs), c', rest.
      split; [done|]. split; [done|]. split; [constructor | done].
  - destruct (traverse (Sequence xs)) as [c'|e0 c'] eqn:Hc; rewrite Hset.
    + intros Hrun. by apply (Hstep c' Hrun).
    + intros [= <- <-]. exists [], [], (Sequence xs), c', rest.
      split; [done|]. split; [done|]. split; [constructor | done].
  - destruct s as [s|z|b|]; try (intros Hrun; by apply (Hstep _ Hrun)).
    destruct (is_placeholder extra (SStr s)) eqn:Hp.
    + destruct (is_placeholder_lookup _ _ Hp) as [x Hx]. rewrite Hx, Hset.
      intros Hrun. apply (Hstep _ Hrun). simpl. rewrite Hp. by exists x.
    + intros Hrun. apply (Hstep _ Hrun). simpl. by rewrite Hp.
Qed.

End LoopFailures.

Lemma entry_ok_same_shape extra kv kv' :
  wf kv.2 -> entry_ok extra (traverse_config extra) kv kv' ->
  kv.1 = kv'.1 /\ same_shape kv.2 kv'.2.
Proof.
  destruct kv as [k c], kv' as [k' c']. simpl. intros Hwf [Hk Hok].
  simpl in *. split; [done|].
  destruct c as [kvs|xs|s].
  - eapply merged_same_shape.
    apply (traverse_config_merged extra _ _ AtRoot Hwf Hok). by left.
  - eapply merged_same_shape.
    apply (traverse_config_merged extra _ _ AtRoot Hwf Hok). by left.
  - destruct (extra !! k); [subst c' | destruct Hok as [_ ->]]; constructor.
Qed.

Lemma elem_ok_same_shape extra v v' :
  wf v -> elem_ok extra (traverse_config extra) v v' -> same_shape v v'.
Proof.
  intros Hwf Hok. destruct v as [kvs|xs|s]; simpl in Hok.
  - eapply merged_same_shape.
    apply (traverse_config_merged extra _ _ AtRoot Hwf Hok). by left.
  - eapply merged_same_shape.
    apply (traverse_config_merged extra _ _ AtRoot Hwf Hok). by left.
  - destruct s as [s|z|b|]; try (subst v'; constructor).
    destruct (is_placeholder extra (SStr s)).
    + destruct Hok as (x & _ & ->). constructor.
    + subst v'. constructor.
Qed.

Lemma Forall2_same_shape_refl_entries (kvs : list (string * ConfigTree)) :
  Forall2 (fun kv kv' => kv.1 = kv'.1 /\ same_shape kv.2 kv'.2) kvs kvs.
Proof.
  induction kvs as [|kv kvs IH]; constructor; [|done].
  split; [done | apply same_shape_refl].
Qed.

Lemma Forall2_same_shape_refl (xs : list ConfigTree) :
  Forall2 same_shape xs xs.
Proof.
  induction xs as [|c xs IH]; constructor; [apply same_shape_refl | done].
Qed.

(** A traversal that raises has met a placeholder under a key that is not
    in [extra], raises [KeyError] of that key, and leaves a tree of the
    same shape. *)
Lemma traverse_config_raised extra t : forall e t',
  wf t -> traverse_config extra t = Raised e t' ->
  same_shape t t'
  /\ exists name,
       e = KeyError name /\ extra !! name = None
       /\ exists p v, entry_at p name (Leaf v) t
                      /\ is_placeholder extra v = true.
Proof.
  induction t as [kvs IH|xs IH|v] using ConfigTree_ind;
    intros e t' Hwf Hrun; simpl in Hrun; [| |done].
  - destruct (dict_loop extra (traverse_config extra) kvs kvs)
      as [d|e0 d] eqn:Hloop; [done|].
    injection Hrun as -> <-. apply wf_Mapping in Hwf as [Hnd Hch].
    apply (dict_loop_raised _ _ kvs []) in Hloop
      as (seen & seen' & [k c] & v' & rest & -> & -> & Hall & Hr); [|done].
    pose proof (NoDup_keys_fresh _ _ _ _ Hnd) as Hfresh.
    apply Forall_app in IH as [_ IH]. apply Forall_cons in IH as [IHc _].
    apply Forall_app in Hch as [Hwfs Hch].
    apply Forall_cons in Hch as [Hwfc _].
    unfold entry_raised in Hr. simpl in *.
    assert (Hget : dict_get (seen ++ (k, c) :: rest) k = Some c).
    { rewrite dict_get_app_fresh by done. simpl. by rewrite eqb_string_refl. }
    split.
    + constructor. apply Forall2_app; [|constructor].
      * apply (Forall2_Forall_impl _ _ _ _ _ Hwfs Hall).
        intros kv kv'. apply entry_ok_same_shape.
      * split; [done|]. simpl.
        destruct c as [kvs0|xs0|s];
          [by apply (IHc e v') | by apply (IHc e v') |].
        destruct Hr as (_ & _ & _ & ->). constructor.
      * apply Forall2_same_shape_refl_entries.
    + destruct c as [kvs0|xs0|s].
      * destruct (IHc e v' Hwfc Hr) as (_ & name & -> & Hn & p & v & He & Hp).
        exists name. split; [done|]. split; [done|].
        exists (Key k :: p), v. split; [|done].
        unfold entry_at in *. simpl. by rewrite Hget.
      * destruct (IHc e v' Hwfc Hr) as (_ & name & -> & Hn & p & v & He & Hp).
        exists name. split; [done|]. split; [done|].
        exists (Key k :: p), v. split; [|done].
        unfold entry_at in *. simpl. by rewrite Hget.
      * destruct Hr as (Hp & Hn & -> & ->).
        exists k. split; [done|]. split; [done|].
        exists [], s. split; [|done].
        unfold entry_at. simpl. by rewrite Hget.
  - destruct (list_loop extra (traverse_config extra) xs 0 xs)
      as [l|e0 l] eqn:Hloop; [done|].
    injection Hrun as -> <-. apply wf_Sequence in Hwf.
    apply (list_loop_raised _ _ xs []) in Hloop
      as (seen & seen' & c & v' & rest & -> & -> & Hall & [Hc Hr]).
    apply Forall_app in IH as [_ IH]. apply Forall_cons in IH as [IHc _].
    apply Forall_app in Hwf as [Hwfs Hwf].
    apply Forall_cons in Hwf as [Hwfc _].
    destruct (IHc e v' Hwfc Hr) as (Hs & name & -> & Hn & p & v & He & Hp).
    simpl. split.
    + constructor. apply Forall2_app; [|constructor].
      * apply (Forall2_Forall_impl _ _ _ _ _ Hwfs Hall).
        intros c0 c0'. apply elem_ok_same_shape.
      * done.
      * apply Forall2_same_shape_refl.
    + exists name. split; [done|]. split; [done|].
      exists (Idx (length seen) :: p), v. split; [|done].
      unfold entry_at in *. simpl.
      by rewrite list_lookup_middle.
Qed.

(** X5.  On a document whose strings are inert (no [???], no [${]), the
    pass raises exactly when some mapping of the tree, at any depth, holds
    a placeholder under a key that is not in [extra]. *)
Theorem update_config_raises_iff config (extra : gmap string string) :
  wf config -> inert config ->
  returns_normally (_update_config config (Some extra)) = false
  <-> unresolvable extra config.
Proof.
  intros Hwf _. split.
  - unfold _update_config, update_config_with.
    destruct (Py.dict_truthy (Some extra)); [|done]. simpl.
    destruct (traverse_config extra config) as [c'|e c'] eqn:Hrun; [done|].
    intros _.
    destruct (traverse_config_raised _ _ _ _ Hwf Hrun)
      as (_ & name & _ & Hn & p & v & He & Hp).
    by exists p, name, v.
  - intros (p & name & v & He & Hp & Hn).
    by eapply update_config_placeholder_raises.
Qed.

Lemma update_config_raises_iff_witness :
  returns_normally (_update_config scenario_doc (Some scenario_cli)) = false
  <-> unresolvable scenario_cli scenario_doc.
Proof.
  apply (update_config_raises_iff scenario_doc scenario_cli).
  - vm_compute. exact I.
  - vm_compute. exact I.
Defined.

(** X6.  On a document whose strings are inert (no [???], no [${]), when
    the pass raises, the exception is [KeyError(name)] for a key [name]
    that [extra] does not have, and the tree it leaves behind, rewritten up
    to the failing entry, has the shape of the original: the same kinds,
    keys and lengths at every path. *)
Theorem update_config_raise_keeps_shape config extra e config' :
  wf config -> inert config ->
  _update_config config extra = Raised e config' ->
  (exists m name, extra = Some m /\ e = KeyError name /\ m !! name = None)
  /\ same_shape config config'
  /\ forall p, kind_of <$> get p config' = kind_of <$> get p config.
Proof.
  intros Hwf _. unfold _update_config, update_config_with.
  destruct (Py.dict_truthy extra); [|done]. simpl.
  destruct extra as [m|]; [|done]. intros Hrun.
  destruct (traverse_config_raised _ _ _ _ Hwf Hrun)
    as (Hs & name & -> & Hn & _).
  split; [by exists m, name|]. split; [done|]. intros p.
  pose proof (same_shape_get p _ _ Hs) as Hp.
  inversion Hp as [c c' Hc|]; simpl; [|done].
  f_equal. symmetry. by apply same_shape_kind.
Qed.

Lemma update_config_raise_keeps_shape_witness :
  (exists m name,
      Some scenario_cli = Some m /\ KeyError "model" = KeyError name
      /\ m !! name = None)
  /\ same_shape partial_doc partial_result
  /\ forall p, kind_of <$> get p partial_result = kind_of <$> get p partial_doc.
Proof.
  apply (update_config_raise_keeps_shape partial_doc (Some scenario_cli)
           (KeyError "model") partial_result).
  - vm_compute. exact I.
  - vm_compute. exact I.
  - vm_compute. reflexivity.
Defined.

(** ** What a pass that returns has and has not written *)

Lemma is_placeholder_empty v : is_placeholder ∅ v = false.
Proof.
  destruct v as [s|z|b|]; try done. unfold is_placeholder, Py.contains.
  rewrite lookup_empty. apply andb_false_r.
Qed.

Lemma update_config_returned config (extra : gmap string string) config' :
  wf config ->
  _update_config config (Some extra) = Returned config' ->
  (extra = ∅ /\ config' = config) \/ merged extra AtRoot config config'.
Proof.
  intros Hwf Hrun. destruct (Py.dict_truthy (Some extra)) eqn:Hne.
  - right. by apply update_config_merged.
  - left. unfold _update_config, update_config_with in Hrun.
    rewrite Hne in Hrun. simpl in *. injection Hrun as <-.
    apply negb_false_iff, bool_decide_eq_true in Hne. done.
Qed.

(** X7.  When the pass returns, a scalar under a key that is not in
    [extra] is what it was, in every mapping of the tree (and it is not a
    resolvable placeholder: the pass would have raised). *)
Theorem update_config_keeps_other_keys
  config (extra : gmap string string) config' p name v :
  wf config ->
  _update_config config (Some extra) = Returned config' ->
  entry_at p name (Leaf v) config ->
  extra !! name = None ->
  entry_at p name (Leaf v) config' /\ is_placeholder extra v = false.
Proof.
  intros Hwf Hrun Hentry Hn.
  destruct (update_config_returned _ _ _ Hwf Hrun) as [[-> ->]|Hm].
  - split; [done | apply is_placeholder_empty].
  - unfold entry_at in *.
    destruct (merged_get _ _ _ _ _ _ _ Hm Hentry) as (c' & Hget & Hc).
    rewrite Hget. simpl in Hc. inversion Hc; subst; [congruence | done].
Qed.

Lemma update_config_keeps_other_keys_witness :
  entry_at [] "mode" (Leaf (SStr "fast")) stops_result
  /\ is_placeholder scenario_cli (SStr "fast") = false.
Proof.
  apply (update_config_keeps_other_keys stops_doc scenario_cli).
  - vm_compute. exact I.
  - vm_compute. reflexivity.
  - reflexivity.
  - vm_compute. reflexivity.
Defined.

(** X8.  When the pass returns, every scalar element of every sequence of
    the tree has been resolved on its own text: a placeholder whose token
    is a key of [extra] is the override of that token, any other scalar is
    what it was. *)
Theorem update_config_resolves_sequences
  config (extra : gmap string string) config' p i v :
  wf config ->
  _update_config config (Some extra) = Returned config' ->
  get (p ++ [Idx i]) config = Some (Leaf v) ->
  get (p ++ [Idx i]) config' = Some (Leaf (resolve_token extra v)).
Proof.
  intros Hwf Hrun Hget.
  destruct (update_config_returned _ _ _ Hwf Hrun) as [[-> ->]|Hm].
  - rewrite Hget. unfold resolve_token.
    rewrite is_placeholder_empty. by destruct v.
  - destruct (merged_get _ _ _ _ _ _ _ Hm Hget) as (c' & Hget' & Hc).
    rewrite Hget'. f_equal. simpl in Hc. unfold resolve_token.
    inversion Hc as [| | |s x Hp Hx|v0 Hp| |]; subst.
    + by rewrite Hp, Hx.
    + rewrite Hp. by destruct v.
Qed.

Lemma update_config_resolves_sequences_witness :
  get ([Key "stops"] ++ [Idx 0]) stops_result
  = Some (Leaf (resolve_token scenario_cli (SStr "<model_name>"))).
Proof.
  apply (update_config_resolves_sequences stops_doc scenario_cli).
  - vm_compute. exact I.
  - vm_compute. reflexivity.
  - reflexivity.
Defined.

(** X9.  When the pass returns, every scalar of the tree is either the
    scalar that was there or a value of [extra], as a string: the pass
    writes nothing else, and a number or boolean it overrides becomes a
    string. *)
Theorem update_config_writes_override_values
  config (extra : gmap string string) config' p v :
  wf config ->
  _update_config config (Some extra) = Returned config' ->
  get p config = Some (Leaf v) ->
  exists v', get p config' = Some (Leaf v')
             /\ (v' = v \/ exists k x, extra !! k = Some x /\ v' = SStr x).
Proof.
  intros Hwf Hrun Hget.
  destruct (update_config_returned _ _ _ Hwf Hrun) as [[-> ->]|Hm].
  { exists v. split; [done | by left]. }
  destruct p as [|st p] using rev_ind.
  - simpl in Hget. injection Hget as ->. inversion Hm; subst.
    exists v. split; [done | by left].
  - destruct (merged_get _ _ _ _ _ _ _ Hm Hget) as (c' & Hget' & Hc).
    rewrite Hget'. clear IHp.
    inversion Hc; subst; eexists; (split; [reflexivity|]); eauto.
Qed.

Lemma update_config_writes_override_values_witness :
  exists v', get [Key "retries"] (Mapping [("retries", Leaf (SStr "4"))])
             = Some (Leaf v')
             /\ (v' = SInt 3
                 \/ exists k x, retries_env !! k = Some x /\ v' = SStr x).
Proof.
  apply (update_config_writes_override_values retries_doc retries_env).
  - vm_compute. exact I.
  - vm_compute. reflexivity.
  - reflexivity.
Defined.

(** ** Running the pass again *)

Section LoopCompleteness.

Variable extra : gmap string string.
Variable traverse : ConfigTree -> Outcome ConfigTree.

Lemma dict_loop_complete items items' :
  Forall2 (entry_ok extra traverse) items items' ->
  forall pre, NoDup (keys (pre ++ items)) ->
  dict_loop extra traverse items (pre ++ items) = Returned (pre ++ items').
Proof.
  induction 1 as [|[name value] [name' v'] items items' [Hk Hok] _ IH];
    intros pre Hnd; simpl in *; [done|]. subst name'.
  pose proof (NoDup_keys_fresh _ _ _ _ Hnd) as Hfresh.
  assert (Hnext :
    dict_loop extra traverse items (pre ++ (name, v') :: items)
    = Returned (pre ++ (name, v') :: items')).
  { rewrite (cons_middle (name, v') pre items), app_assoc.
    rewrite (cons_middle (name, v') pre items'), app_assoc.
    apply IH. by rewrite (keys_app_middle _ _ value). }
  destruct value as [kvs|xs|s].
  - by rewrite Hok, dict_set_app_fresh.
  - by rewrite Hok, dict_set_app_fresh.
  - destruct (extra !! name) as [x|] eqn:Hx.
    + subst v'. rewrite !dict_set_app_fresh by done.
      by destruct (is_placeholder extra s).
    + destruct Hok as [Hp ->]. by rewrite Hp.
Qed.

Lemma list_loop_complete elems elems' :
  Forall2 (elem_ok extra traverse) elems elems' ->
  forall pre,
  list_loop extra traverse elems (length pre) (pre ++ elems)
  = Returned (pre ++ elems').
Proof.
  induction 1 as [|value v' elems elems' Hok _ IH]; intros pre; simpl;
    [done|].
  assert (Hset : forall v1,
    <[length pre := v1]> (pre ++ value :: elems) = pre ++ v1 :: elems).
  { intros v1. rewrite insert_app_r_alt by done. by rewrite Nat.sub_diag. }
  assert (Hnext :
    list_loop extra traverse elems (S (length pre)) (pre ++ v' :: elems)
    = Returned (pre ++ v' :: elems')).
  { rewrite (cons_middle v' pre elems), app_assoc.
    rewrite (cons_middle v' pre elems'), app_assoc.
    replace (S (length pre)) with (length (pre ++ [v']))
      by (rewrite length_app; simpl; lia).
    apply IH. }
  destruct value as [kvs|xs|s]; simpl in Hok.
  - by rewrite Hok, Hset.
  - by rewrite Hok, Hset.
  - destruct s as [s|z|b|]; try (by subst v').
    destruct (is_placeholder extra (SStr s)).
    + destruct Hok as (x & Hx & ->). by rewrite Hx, Hset.
    + by subst v'.
Qed.

End LoopCompleteness.

(** The relation determines the traversal: what [merged] relates is what
    the traversal returns. *)
Lemma merged_traverse_config extra t : forall pos t',
  wf t -> merged extra pos t t' ->
  is_container t = true \/ pos = AtRoot ->
  traverse_config extra t = Returned t'.
Proof.
  induction t as [kvs IH|xs IH|v] using ConfigTree_ind;
    intros pos t' Hwf Hm Hpos; simpl.
  - inversion Hm as [| | | | |pos' kvs0 kvs' Hall|]; subst.
    apply wf_Mapping in Hwf as [Hnd Hch].
    rewrite (dict_loop_complete extra _ kvs kvs' ) with (pre := []); [done| |done].
    pose proof (proj2 (Forall_and _ _) (conj IH Hch)) as Hboth.
    apply (Forall2_Forall_impl _ _ _ _ _ Hboth Hall).
    intros [k c] [k' c'] [IHc Hwfc] [Hk Hc]. simpl in *. subst k'.
    split; [done|]. simpl.
    destruct c as [kvs1|xs1|s];
      [eapply IHc; eauto | eapply IHc; eauto |].
    inversion Hc; subst; simpl.
    + by match goal with H : extra !! k = Some _ |- _ => rewrite H end.
    + by match goal with H : extra !! k = None |- _ => rewrite H end.
  - inversion Hm as [| | | | | |pos' xs0 xs' Hall]; subst.
    apply wf_Sequence in Hwf.
    rewrite (list_loop_complete extra _ xs xs') with (pre := []); [done|].
    pose proof (proj2 (Forall_and _ _) (conj IH Hwf)) as Hboth.
    apply (Forall2_Forall_impl _ _ _ _ _ Hboth Hall).
    intros c c' [IHc Hwfc] Hc.
    destruct c as [kvs1|xs1|s];
      [eapply IHc; eauto | eapply IHc; eauto |].
    inversion Hc as [| | |s0 x Hp Hx|v0 Hp| |]; subst; simpl.
    + rewrite Hp. by exists x.
    + destruct s as [s|z|b|]; try done. by rewrite Hp.
  - destruct Hpos as [?| ->]; [done|]. by inversion Hm.
Qed.

Lemma no_token_values_lookup (extra : gmap string string) k x :
  no_token_values extra = true -> extra !! k = Some x ->
  is_placeholder extra (SStr x) = false.
Proof.
  unfold no_token_values. rewrite forallb_forall. intros Hall Hk.
  apply elem_of_map_to_list, list_elem_of_In in Hk.
  apply Hall in Hk. simpl in Hk. by apply negb_true_iff in Hk.
Qed.

Lemma Forall2_Forall_diag {A B} (P : A -> Prop) (R : A -> B -> Prop)
  (R' : B -> B -> Prop) l l' :
  Forall P l -> Forall2 R l l' ->
  (forall x y, P x -> R x y -> R' y y) ->
  Forall2 R' l' l'.
Proof.
  intros HP HR Himp. induction HR as [|x y l l' Hxy HR IH]; [constructor|].
  apply Forall_cons in HP as [Hx HP]. constructor; eauto.
Qed.

(** What a pass left is a fixed point of the relation when no override
    value is a placeholder. *)
Lemma merged_fixed_point extra t : forall pos t',
  no_token_values extra = true ->
  merged extra pos t t' -> merged extra pos t' t'.
Proof.
  induction t as [kvs IH|xs IH|v] using ConfigTree_ind;
    intros pos t' Hno Hm.
  - inversion Hm as [| | | | |pos' kvs0 kvs' Hall|]; subst. constructor.
    apply (Forall2_Forall_diag _ _ _ _ _ IH Hall).
    intros [k c] [k' c'] IHc [Hk Hc]. simpl in *. subst k'.
    split; [done|]. by eapply IHc.
  - inversion Hm as [| | | | | |pos' xs0 xs' Hall]; subst. constructor.
    apply (Forall2_Forall_diag _ _ _ _ _ IH Hall).
    intros c c' IHc Hc. by eapply IHc.
  - inversion Hm as [|name v0 x Hx|name v0 Hn Hp|s x Hp Hx|v0 Hp| |]; subst.
    + constructor.
    + by apply merged_direct.
    + by apply merged_untouched.
    + apply merged_plain. by eapply no_token_values_lookup.
    + by apply merged_plain.
Qed.

(** X10.  The pass is idempotent as long as no override value is itself a
    placeholder of [extra]: run again on the tree it left, with the same
    [extra], it returns that tree unchanged. *)
Theorem update_config_idempotent config (extra : gmap string string) config' :
  wf config ->
  no_token_values extra = true ->
  _update_config config (Some extra) = Returned config' ->
  _update_config config' (Some extra) = Returned config'.
Proof.
  intros Hwf Hno Hrun.
  destruct (Py.dict_truthy (Some extra)) eqn:Hne.
  - pose proof (update_config_merged _ _ _ Hwf Hne Hrun) as Hm.
    rewrite update_config_nonempty by done.
    apply (merged_traverse_config extra _ AtRoot).
    + eapply same_shape_wf; [|exact Hwf]. by eapply merged_same_shape.
    + by eapply merged_fixed_point.
    + by right.
  - unfold _update_config, update_config_with in *. rewrite Hne in *.
    simpl in *. by injection Hrun as <-.
Qed.

Lemma update_config_idempotent_witness :
  _update_config stops_result (Some scenario_cli) = Returned stops_result.
Proof.
  apply (update_config_idempotent stops_doc scenario_cli).
  - vm_compute. exact I.
  - vm_compute. reflexivity.
  - vm_compute. reflexivity.
Defined.

(** Without that condition a second pass goes one token further. *)
Example update_config_chained_tokens :
  _update_config (Sequence [Leaf (SStr "<a>")]) (Some chained_extra)
    = Returned (Sequence [Leaf (SStr "<b>")])
  /\ _update_config (Sequence [Leaf (SStr "<b>")]) (Some chained_extra)
    = Returned (Sequence [Leaf (SStr "c")]).
Proof. split; vm_compute; reflexivity. Qed.

(** ** More on the MCP projection *)

Lemma dict_set_fresh_append d k v :
  k ∉ keys d -> dict_set d k v = d ++ [(k, v)].
Proof.
  induction d as [|[k0 v0] d IH]; simpl; [done|].
  intros Hk. apply not_elem_of_cons in Hk as [Hne Hk].
  destruct (String.eqb_spec k0 k) as [->|_]; [done|]. by rewrite IH.
Qed.

Lemma NoDup_app_drop_middle {A} (l : list A) x k :
  NoDup (l ++ x :: k) -> NoDup (l ++ k).
Proof.
  rewrite !NoDup_app. intros (Hl & Hdisj & Hk).
  apply NoDup_cons in Hk as [_ Hk]. split; [done|]. split; [|done].
  intros y Hy Hin. apply (Hdisj y Hy). apply elem_of_cons. by right.
Qed.

Lemma mcp_loop_filter items : forall servers,
  NoDup (keys (servers ++ items)) ->
  mcp_loop items servers
  = servers ++ List.filter (fun kv => mcp_enabled kv.2) items.
Proof.
  induction items as [|[server server_config] rest IH]; intros servers Hnd;
    simpl; [by rewrite app_nil_r|].
  pose proof (NoDup_keys_fresh _ _ _ _ Hnd) as Hfresh.
  fold (mcp_enabled server_config).
  destruct (mcp_enabled server_config).
  - rewrite dict_set_fresh_append by done. unfold deepcopy.
    rewrite IH; [by rewrite <- app_assoc|].
    by rewrite (keys_app_middle _ _ server_config).
  - apply IH. unfold keys in *. rewrite fmap_app in *.
    simpl in Hnd. by apply NoDup_app_drop_middle in Hnd.
Qed.

(** X11.  The projection is the tools mapping filtered, in its order: the
    entries whose [mcp] attribute is true or missing, each with its whole
    sub-tree.  A null, false, zero or empty [mcp] leaves the entry out; an
    entry that is not a mapping has no [mcp] and is taken. *)
Theorem convert_mcp_servers_filters_tools config items :
  NoDup (keys items) ->
  getattr config "tools" = Value (Mapping items) ->
  convert_mcp_servers_to_json config
  = Value (Mapping
             [("mcpServers",
               Mapping (List.filter (fun kv => mcp_enabled kv.2) items))]).
Proof.
  intros Hnd Htools. unfold convert_mcp_servers_to_json, getattr_default.
  rewrite Htools. destruct items as [|kv items]; [done|].
  simpl py_truthy. cbv iota. by rewrite (mcp_loop_filter _ []).
Qed.

Lemma convert_mcp_servers_filters_tools_witness :
  convert_mcp_servers_to_json (Mapping [("tools", Mapping tools_entries)])
  = Value (Mapping
             [("mcpServers",
               Mapping (List.filter (fun kv => mcp_enabled kv.2)
                                    tools_entries))]).
Proof.
  apply (convert_mcp_servers_filters_tools
           (Mapping [("tools", Mapping tools_entries)]) tools_entries).
  - compute_done.
  - reflexivity.
Defined.

Example tools_entries_filtered :
  List.filter (fun kv => mcp_enabled kv.2) tools_entries
  = [("a", Mapping [("mcp", Leaf (SBool true)); ("x", Leaf (SInt 1))]);
     ("c", Leaf (SStr "npx server"))].
Proof. reflexivity. Qed.

(** X12.  A document that has no [tools], or a null one, projects to the
    empty registry once it has been through [fill_missing_fields]; neither
    call raises. *)
Theorem finished_document_without_tools_projects_empty d :
  dict_get d "tools" = None \/ dict_get d "tools" = Some (Leaf SNull) ->
  exists config',
    fill_missing_fields (Mapping d) = Returned config'
    /\ convert_mcp_servers_to_json config' = Value empty_projection.
Proof.
  intros Hd.
  destruct (fill_missing_fields_Mapping d) as (d' & Hrun & Ht & _).
  exists (Mapping d'). split; [done|].
  unfold convert_mcp_servers_to_json, getattr_default, getattr.
  rewrite Ht. by destruct Hd as [-> | ->].
Qed.

Lemma finished_document_without_tools_projects_empty_witness :
  exists config',
    fill_missing_fields (Mapping [("llm", Leaf (SStr "x"))]) = Returned config'
    /\ convert_mcp_servers_to_json config' = Value empty_projection.
Proof.
  apply (finished_document_without_tools_projects_empty
           [("llm", Leaf (SStr "x"))]).
  left. reflexivity.
Defined.

(** ** What [from_task] hands back *)

Lemma fill_field_other key empty config config' k :
  fill_field key empty config = Returned config' ->
  k <> key ->
  getattr config' k = getattr config k.
Proof.
  destruct config as [d|xs|s]; [|done|done].
  rewrite fill_field_Mapping. intros [= <-] Hne. simpl.
  destruct (dict_get d key) as [[kvs|xs|[s|z|b|]]|];
    rewrite ?dict_get_set_ne by done; done.
Qed.

Lemma fill_field_filled key empty config config' :
  fill_field key empty config = Returned config' ->
  is_None empty = false ->
  exists v, getattr config' key = Value v /\ is_None v = false.
Proof.
  destruct config as [d|xs|s]; [|done|done].
  rewrite fill_field_Mapping. intros [= <-] He. simpl.
  destruct (dict_get d key) as [[kvs|xs|[s|z|b|]]|] eqn:Hk;
    rewrite ?dict_get_set_eq, ?Hk; by eexists.
Qed.

(** X13.  The configuration [from_task] returns carries the file name
    under [name] and the directory under [local_dir], has a [tools] and a
    [callbacks] that are not null, and [is_workflow] on it does not raise:
    it answers whether the file was [workflow.yaml] or [workflow.yml]. *)
Theorem from_task_postcondition config name local_dir envs unknown final :
  from_task config name local_dir envs unknown = Returned final ->
  getattr final "name" = Value (Leaf (SStr name))
  /\ getattr final "local_dir" = Value (Leaf (SStr local_dir))
  /\ (exists t, getattr final "tools" = Value t /\ is_None t = false)
  /\ (exists c, getattr final "callbacks" = Value c /\ is_None c = false)
  /\ is_workflow final
     = Value (bool_decide (name = "workflow.yaml" \/ name = "workflow.yml")).
Proof.
  unfold from_task. intros Hrun.
  destruct (merge_passes config envs unknown) as [c2|e s] eqn:H2; [|done].
  simpl in Hrun.
  destruct c2 as [d2|xs|s]; [|done|done]. simpl in Hrun.
  unfold fill_missing_fields in Hrun.
  destruct (fill_field "tools" _ _) as [c5|e s] eqn:H5; [|done].
  simpl in Hrun.
  assert (Hname : getattr final "name" = Value (Leaf (SStr name))).
  { rewrite (fill_field_other _ _ _ _ "name" Hrun) by done.
    rewrite (fill_field_other _ _ _ _ "name" H5) by done.
    simpl. by rewrite dict_get_set_eq. }
  split; [done|]. split.
  { rewrite (fill_field_other _ _ _ _ "local_dir" Hrun) by done.
    rewrite (fill_field_other _ _ _ _ "local_dir" H5) by done.
    simpl. rewrite dict_get_set_ne by done. by rewrite dict_get_set_eq. }
  split.
  { rewrite (fill_field_other _ _ _ _ "tools" Hrun) by done.
    by apply (fill_field_filled _ _ _ _ H5). }
  split.
  { by apply (fill_field_filled _ _ _ _ Hrun). }
  unfold is_workflow. rewrite Hname. simpl. f_equal.
  rewrite orb_false_r.
  destruct (String.eqb_spec name "workflow.yaml") as [->|Hn1]; [done|].
  destruct (String.eqb_spec name "workflow.yml") as [->|Hn2]; [done|].
  simpl. symmetry. apply bool_decide_eq_false. intros [?|?]; done.
Qed.

Lemma from_task_postcondition_witness :
  getattr retries_final "name" = Value (Leaf (SStr "agent.yml"))
  /\ getattr retries_final "local_dir" = Value (Leaf (SStr "/tmp"))
  /\ (exists t, getattr retries_final "tools" = Value t /\ is_None t = false)
  /\ (exists c, getattr retries_final "callbacks" = Value c
                /\ is_None c = false)
  /\ is_workflow retries_final
     = Value (bool_decide ("agent.yml" = "workflow.yaml"
                           \/ "agent.yml" = "workflow.yml")).
Proof.
  apply (from_task_postcondition retries_doc "agent.yml" "/tmp" retries_env
           ["run"; "--retries"; "5"]).
  vm_compute. reflexivity.
Defined.

Lemma update_config_Sequence xs extra config' :
  _update_config (Sequence xs) extra = Returned config' ->
  exists xs', config' = Sequence xs'.
Proof.
  unfold _update_config, update_config_with.
  destruct (negb (Py.dict_truthy extra)); [intros [= <-]; by eexists|].
  destruct extra as [m|]; [|intros [= <-]; by eexists]. simpl.
  destruct (list_loop m (traverse_config m) xs 0 xs) as [l|e l]; [|done].
  intros [= <-]. by eexists.
Qed.

(** X14.  A document whose root is a sequence cannot be resolved:
    [from_task] never returns on it, since a [ListConfig] takes no
    [local_dir] attribute (if no pass raised before). *)
Theorem from_task_rejects_sequence_root xs name local_dir envs unknown :
  returns_normally (from_task (Sequence xs) name local_dir envs unknown)
  = false.
Proof.
  unfold from_task, merge_passes.
  destruct (_update_config (Sequence xs) (Some envs)) as [c1|e s] eqn:H1;
    [|done].
  apply update_config_Sequence in H1 as [xs1 ->]. simpl.
  destruct (parse_args unknown) as [cli|e d]; [|done].
  destruct (_update_config (Sequence xs1) (Some cli)) as [c2|e s] eqn:H2;
    [|done].
  apply update_config_Sequence in H2 as [xs2 ->]. done.
Qed.

(** ** Finding the document *)

Lemma from_task_name_fields config name local_dir envs unknown final :
  from_task config name local_dir envs unknown = Returned final ->
  getattr final "name" = Value (Leaf (SStr name))
  /\ getattr final "local_dir" = Value (Leaf (SStr local_dir)).
Proof.
  unfold from_task. intros Hrun.
  destruct (merge_passes config envs unknown) as [c2|e s] eqn:H2; [|done].
  simpl in Hrun.
  destruct c2 as [d2|xs|s]; [|done|done]. simpl in Hrun.
  unfold fill_missing_fields in Hrun.
  destruct (fill_field "tools" _ _) as [c5|e s] eqn:H5; [|done].
  simpl in Hrun. split.
  - rewrite (fill_field_other _ _ _ _ "name" Hrun) by done.
    rewrite (fill_field_other _ _ _ _ "name" H5) by done.
    simpl. by rewrite dict_get_set_eq.
  - rewrite (fill_field_other _ _ _ _ "local_dir" Hrun) by done.
    rewrite (fill_field_other _ _ _ _ "local_dir" H5) by done.
    simpl. rewrite dict_get_set_ne by done. by rewrite dict_get_set_eq.
Qed.

Lemma is_workflow_of_name config name :
  getattr config "name" = Value (Leaf (SStr name)) ->
  is_workflow config
  = Value (bool_decide (name = "workflow.yaml" \/ name = "workflow.yml")).
Proof.
  intros Hname. unfold is_workflow. rewrite Hname. simpl. f_equal.
  rewrite orb_false_r.
  destruct (String.eqb_spec name "workflow.yaml") as [->|Hn1]; [done|].
  destruct (String.eqb_spec name "workflow.yml") as [->|Hn2]; [done|].
  simpl. symmetry. apply bool_decide_eq_false. intros [?|?]; done.
Qed.

Section LocateFacts.

Variable path_join : string -> string -> string.
Variable path_basename : string -> string.
Variable path_dirname : string -> string.
Variable snapshot_download :
  FileSystem -> string -> Result (string * FileSystem).

Lemma search_configs_found fs dir names config name :
  search_configs path_join fs dir names = Value (Some (config, name)) ->
  exists before after,
    names = before ++ name :: after
    /\ Forall (fun n => path_exists fs (path_join dir n) = false) before
    /\ path_exists fs (path_join dir name) = true
    /\ OmegaConf_load fs (path_join dir name) = Value config.
Proof.
  induction names as [|n rest IH]; simpl; [done|].
  destruct (path_exists fs (path_join dir n)) eqn:Hn.
  - destruct (OmegaConf_load fs (path_join dir n)) as [c|e] eqn:Hl; [|done].
    intros [= -> ->]. exists [], rest. split; [done|].
    split; [constructor | done].
  - intros Hrun. destruct (IH Hrun) as (before & after & -> & Hb & He & Hl).
    exists (n :: before), after. split; [done|].
    split; [by constructor | done].
Qed.

Lemma search_configs_none fs dir names :
  Forall (fun n => path_exists fs (path_join dir n) = false) names ->
  search_configs path_join fs dir names = Value None.
Proof.
  induction 1 as [|n rest Hn _ IH]; simpl; [done|]. by rewrite Hn.
Qed.

(** X15.  For a directory, the document is the first of [workflow.yaml],
    [workflow.yml], [agent.yaml], [agent.yml] that exists in it: no name
    before it in that order exists, and its name and the directory are
    what [from_task] records. *)
Theorem locate_takes_first_candidate fs p dir fs' l :
  resolve_path snapshot_download fs p = Value (dir, fs') ->
  path_isfile fs' dir = false ->
  locate path_join path_basename path_dirname snapshot_download fs p
    = Value l ->
  loc_dir l = dir
  /\ exists before after,
       supported_config_names = before ++ loc_name l :: after
       /\ Forall (fun n => path_exists fs' (path_join dir n) = false) before
       /\ path_exists fs' (path_join dir (loc_name l)) = true
       /\ OmegaConf_load fs' (path_join dir (loc_name l))
          = Value (loc_config l).
Proof.
  intros Hres Hfile. unfold locate, load_from. rewrite Hres, Hfile.
  destruct (search_configs path_join fs' dir supported_config_names)
    as [[[config name]|]|e] eqn:Hs; [|done|done].
  intros [= <-]. simpl. split; [done|]. by apply search_configs_found.
Qed.

(** X16.  For a directory that holds none of the four names, [locate]
    stops with the assertion error of line 102, which carries the directory
    and the four names; nothing is loaded. *)
Theorem locate_not_found fs p dir fs' :
  resolve_path snapshot_download fs p = Value (dir, fs') ->
  path_isfile fs' dir = false ->
  Forall (fun n => path_exists fs' (path_join dir n) = false)
         supported_config_names ->
  locate path_join path_basename path_dirname snapshot_download fs p
  = Error (AssertionError cannot_find
             [dir; "workflow.yaml"; "workflow.yml"; "agent.yaml"; "agent.yml"]).
Proof.
  intros Hres Hfile Hnone. unfold locate, load_from. rewrite Hres, Hfile.
  by rewrite (search_configs_none _ _ _ Hnone).
Qed.

(** X17.  A resolved directory is a workflow exactly when it holds
    [workflow.yaml] or [workflow.yml], whether or not an agent file is
    there too: on what [from_task] returns for it, [is_workflow] does not
    raise and is true in that case only. *)
Theorem from_task_at_directory_is_workflow fs p dir fs' envs unknown final :
  resolve_path snapshot_download fs p = Value (dir, fs') ->
  path_isfile fs' dir = false ->
  from_task_at path_join path_basename path_dirname snapshot_download
               fs p envs unknown = Value (Returned final) ->
  (exists b, is_workflow final = Value b)
  /\ (is_workflow final = Value true
      <-> path_exists fs' (path_join dir "workflow.yaml") = true
          \/ path_exists fs' (path_join dir "workflow.yml") = true).
Proof.
  intros Hres Hfile. unfold from_task_at, locate, load_from.
  rewrite Hres, Hfile.
  destruct (search_configs path_join fs' dir supported_config_names)
    as [[[config name]|]|e] eqn:Hs; [|done|done].
  simpl. intros [= Hrun].
  apply search_configs_found in Hs
    as (before & after & Hnames & Hb & He & _).
  apply from_task_name_fields in Hrun as [Hname _].
  rewrite (is_workflow_of_name _ _ Hname).
  split; [by eexists|].
  unfold supported_config_names in Hnames.
  destruct before as [|n1 [|n2 before]]; simplify_eq/=.
  - split; [by left | done].
  - apply Forall_cons in Hb as [H1 _].
    split; [by right | done].
  - apply Forall_cons in Hb as [H1 Hb]. apply Forall_cons in Hb as [H2 _].
    split.
    + intros Hd. assert (Hd' : name = "workflow.yaml" \/ name = "workflow.yml").
      { injection Hd as Hd. by apply bool_decide_eq_true in Hd. }
      destruct before as [|n3 [|n4 before]]; simplify_eq/=;
        destruct Hd'; try done.
      all: destruct before; done.
    + intros [H|H]; congruence.
Qed.

(** X18.  A path to a file is loaded as it is, whatever it is called and
    whatever else its directory holds: [from_task] records its base name
    and its directory, and [is_workflow] goes by that base name. *)
Theorem from_task_at_file fs p path fs' envs unknown final :
  resolve_path snapshot_download fs p = Value (path, fs') ->
  path_isfile fs' path = true ->
  from_task_at path_join path_basename path_dirname snapshot_download
               fs p envs unknown = Value (Returned final) ->
  getattr final "name" = Value (Leaf (SStr (path_basename path)))
  /\ getattr final "local_dir" = Value (Leaf (SStr (path_dirname path)))
  /\ is_workflow final
     = Value (bool_decide (path_basename path = "workflow.yaml"
                           \/ path_basename path = "workflow.yml")).
Proof.
  intros Hres Hfile. unfold from_task_at, locate, load_from.
  rewrite Hres, Hfile.
  destruct (OmegaConf_load fs' path) as [config|e]; [|done]. simpl.
  intros [= Hrun]. apply from_task_name_fields in Hrun as [Hname Hdir].
  split; [done|]. split; [done|]. by apply is_workflow_of_name.
Qed.

End LocateFacts.

Lemma locate_takes_first_candidate_witness :
  loc_dir {| loc_config := Mapping []; loc_name := "workflow.yml";
             loc_dir := "/cfg" |} = "/cfg"
  /\ exists before after,
       supported_config_names = before ++ "workflow.yml" :: after
       /\ Forall (fun n => path_exists cfg_fs (cfg_join "/cfg" n) = false)
                 before
       /\ path_exists cfg_fs (cfg_join "/cfg" "workflow.yml") = true
       /\ OmegaConf_load cfg_fs (cfg_join "/cfg" "workflow.yml")
          = Value (Mapping []).
Proof.
  apply (locate_takes_first_candidate cfg_join id id no_hub cfg_fs "/cfg"
           "/cfg" cfg_fs
           {| loc_config := Mapping []; loc_name := "workflow.yml";
              loc_dir := "/cfg" |}).
  - reflexivity.
  - reflexivity.
  - reflexivity.
Defined.

Lemma locate_not_found_witness :
  locate cfg_join id id no_hub empty_fs "/empty"
  = Error (AssertionError cannot_find
             ["/empty"; "workflow.yaml"; "workflow.yml"; "agent.yaml";
              "agent.yml"]).
Proof.
  apply (locate_not_found cfg_join id id no_hub empty_fs "/empty" "/empty"
           empty_fs).
  - reflexivity.
  - reflexivity.
  - repeat constructor.
Defined.

Lemma from_task_at_directory_is_workflow_witness :
  (exists b, is_workflow cfg_final = Value b)
  /\ (is_workflow cfg_final = Value true
      <-> path_exists cfg_fs (cfg_join "/cfg" "workflow.yaml") = true
          \/ path_exists cfg_fs (cfg_join "/cfg" "workflow.yml") = true).
Proof.
  apply (from_task_at_directory_is_workflow cfg_join id id no_hub cfg_fs
           "/cfg" "/cfg" cfg_fs retries_env ["run"; "--retries"; "5"]).
  - reflexivity.
  - reflexivity.
  - vm_compute. reflexivity.
Defined.

Lemma from_task_at_file_witness :
  getattr file_final "name"
  = Value (Leaf (SStr (cfg_basename "/cfg/agent.yml")))
  /\ getattr file_final "local_dir"
     = Value (Leaf (SStr (cfg_dirname "/cfg/agent.yml")))
  /\ is_workflow file_final
     = Value (bool_decide (cfg_basename "/cfg/agent.yml" = "workflow.yaml"
                           \/ cfg_basename "/cfg/agent.yml" = "workflow.yml")).
Proof.
  apply (from_task_at_file cfg_join cfg_basename cfg_dirname
           no_hub cfg_fs "/cfg/agent.yml" "/cfg/agent.yml" cfg_fs
           retries_env ["run"]).
  - reflexivity.
  - reflexivity.
  - vm_compute. reflexivity.
Defined.

Lemma from_task_keeps_entries_witness :
  get [Key "llm"; Key "stop"] nested_null_final = Some (Leaf SNull).
Proof.
  apply (from_task_keeps_entries nested_null_doc "agent.yml" "/tmp"
           retries_env ["run"] nested_null_doc).
  - vm_compute. reflexivity.
  - vm_compute. reflexivity.
  - done.
  - done.
  - reflexivity.
  - done.
Defined.

(** ** Command-line overrides in what [from_task] returns *)

(** C6 as stated fails: a root entry [name] that both maps override ends
    as the file name, which line 116 assigns after the passes. *)
Lemma cli_override_lost_at_root_name :
  ~ (forall config file_name local_dir (envs : gmap string string) unknown
            (cli : gmap string string) final p name v ve vc,
       wf config ->
       entry_at p name (Leaf v) config ->
       envs !! name = Some ve ->
       parse_args unknown = Returned cli ->
       cli !! name = Some vc ->
       from_task config file_name local_dir envs unknown = Returned final ->
       entry_at p name (Leaf (SStr vc)) final).
Proof.
  intros H.
  specialize (H named_doc "agent.yaml" "/tmp" {["name" := "e"]}
                ["run"; "--name"; "c"] {["name" := "c"]} named_final
                [] "name" (SStr "x") "e" "c").
  assert (Hno : entry_at [] "name" (Leaf (SStr "c")) named_final -> False)
    by (unfold entry_at; simpl; congruence).
  apply Hno, H; solve [vm_compute; exact I | vm_compute; reflexivity].
Qed.

(** C6, amended.  [from_task] applies exactly two merge passes to the
    loaded tree, the environment pass and then the command-line pass; when
    it returns, a scalar entry whose key is in both maps holds the
    command-line value in the configuration returned, unless the entry is
    the root entry [name] or [local_dir], or lies below one of them: those
    two root keys are assigned after the passes. *)
Theorem from_task_cli_overrides_win
  config file_name local_dir (envs : gmap string string) unknown
  (cli : gmap string string) final p name v ve vc :
  wf config ->
  entry_at p name (Leaf v) config ->
  envs !! name = Some ve ->
  parse_args unknown = Returned cli ->
  cli !! name = Some vc ->
  from_task config file_name local_dir envs unknown = Returned final ->
  head (p ++ [Key name]) <> Some (Key "local_dir") ->
  head (p ++ [Key name]) <> Some (Key "name") ->
  (exists config1 config2,
      _update_config config (Some envs) = Returned config1
      /\ _update_config config1 (Some cli) = Returned config2
      /\ merge_passes config envs unknown = Returned config2
      /\ entry_at p name (Leaf (SStr ve)) config1
      /\ entry_at p name (Leaf (SStr vc)) config2)
  /\ entry_at p name (Leaf (SStr vc)) final.
Proof.
  intros Hwf Hentry Hve Hparse Hvc Hrun Hl Hn.
  destruct (merge_passes config envs unknown) as [config2|e s] eqn:Hpass;
    [|by unfold from_task in Hrun; rewrite Hpass in Hrun].
  destruct (cli_overrides_win _ _ _ _ _ _ _ _ _ _
              Hwf Hentry Hve Hparse Hvc Hpass)
    as [(config1 & H1 & H2 & He1) He2].
  split; [by exists config1, config2|].
  unfold entry_at in *. clear Hentry He1.
  remember (p ++ [Key name]) as path eqn:Hpath.
  destruct path as [|st q]; [by destruct p|]. simpl in Hl, Hn.
  rewrite get_cons in He2 |- *.
  destruct (get [st] config2) as [c0|] eqn:H0; [|done]. simpl in He2.
  rewrite (from_task_tail_keeps _ _ _ _ _ _ _ _ c0 Hpass Hrun);
    [done|congruence|congruence| |done].
  intros Hnull. destruct c0 as [kvs|xs|[s|z|b|]]; try done.
  destruct q as [|st' q]; [done | by rewrite get_Leaf_cons in He2].
Qed.

Lemma from_task_cli_overrides_win_witness :
  (exists config1 config2,
      _update_config retries_doc (Some retries_env) = Returned config1
      /\ _update_config config1 (Some {["retries" := "5"]})
         = Returned config2
      /\ merge_passes retries_doc retries_env ["run"; "--retries"; "5"]
         = Returned config2
      /\ entry_at [] "retries" (Leaf (SStr "4")) config1
      /\ entry_at [] "retries" (Leaf (SStr "5")) config2)
  /\ entry_at [] "retries" (Leaf (SStr "5")) retries_final.
Proof.
  apply (from_task_cli_overrides_win retries_doc "agent.yml" "/tmp"
           retries_env ["run"; "--retries"; "5"] {["retries" := "5"]}
           retries_final [] "retries" (SInt 3) "4" "5").
  - vm_compute. exact I.
  - reflexivity.
  - vm_compute. reflexivity.
  - vm_compute. reflexivity.
  - vm_compute. reflexivity.
  - vm_compute. reflexivity.
  - simpl. congruence.
  - simpl. congruence.
Defined.
